(** * nrs-lib-ts: the data model, the DAH_standards extension, and the
      failure checks of the engine and of the extension resolver

    Shallow embedding of [src/data.ts] and [src/exts/DAH_standards.ts].
    JavaScript numbers are IEEE 754 binary64 values and are modelled by the
    kernel's primitive floats; luxon instants and durations are modelled by
    their millisecond counts in [Z]; [Map<Id, _>] is a [gmap] over strings;
    a thrown [Error] is the [Err] case of [result].

    process.ts, ext.ts, math.ts, utils.ts and DAH_factors.ts are not among
    the sources.  What the extension imports from them is the record
    [Imports]; the failure checks of the propagation engine and the
    extension resolver are modelled from the specification (§4.5, §4.6),
    each under a comment that says so. *)

From Stdlib Require Import ZArith Lia.
From Stdlib Require Import Floats.PrimFloat Floats.SpecFloat Floats.FloatOps.
From Stdlib Require Floats.FloatAxioms.
From Stdlib Require Uint63.
From stdpp Require Import gmap strings list fin_maps.

Local Open Scope Z_scope.
Local Set Warnings "-register-all,-inexact-float".

(* ===================================================================== *)
(** * Thrown errors *)
(* ===================================================================== *)

(** What a [throw] carries.  [AssertionFailed] is [assert] of utils.ts with
    a false condition, [OutOfBounds] the error of [mapClampThrow],
    [StrengthRange] the error of [meme]; the last four are the failures the
    engine and the resolver are specified to raise. *)
Inductive error :=
  | AssertionFailed (msg : string)
  | OutOfBounds (factor iMin iMax : float)
  | StrengthRange (strength : float)
  | EmptyCombineInput
  | DanglingReference (missing : string)
  | CyclicEntryGraph (path : list string)
  | ExtensionDependencyError.

Inductive result (A : Type) :=
  | Ok (a : A)
  | Err (e : error).
Arguments Ok {A} a.
Arguments Err {A} e.

#[export] Instance result_ret : MRet result := λ A a, Ok a.
#[export] Instance result_bind : MBind result := λ A B f m,
  match m with Ok a => f a | Err e => Err e end.

Definition raises {A} (m : result A) : Prop := ∃ e, m = Err e.
Definition returns {A} (m : result A) : Prop := ∃ a, m = Ok a.

(** Modelled from the spec: [assert(cond, msg)] of utils.ts, which is
    missing from the sources.  It throws when the condition is false: this
    is how the extension "refuses to construct an Impact with no emotions"
    (§7). *)
Definition assert (cond : bool) (msg : string) : result unit :=
  if cond then Ok tt else Err (AssertionFailed msg).

(* ===================================================================== *)
(** * data.ts *)
(* ===================================================================== *)

Definition Id := string.

(** Modelled from the spec: [Vector] and [Matrix] of math.ts, which is
    missing from the sources.  A [Vector] is the "ordered sequence of
    floating-point magnitudes", one per factor; of [Matrix] the two shapes
    the extension builds are kept: a plain number (the values of its
    [Contributors] maps) and [{kind: "diagonal", data}]. *)
Definition Vector := list float.

Inductive Matrix :=
  | Scalar (k : float)
  | Diagonal (data : Vector).

(** The free-form provenance payload [DAH_meta]. *)
Inductive Meta :=
  | MNum (x : float)
  | MStr (s : string)
  | MDuration (millis : Z)
  | MDateTime (ts : Z)
  | MList (items : list Meta)
  | MObj (fields : list (string * Meta)).

Record Entry := {
  id : Id;
  children : gmap Id Matrix;
  entry_DAH_meta : Meta;
}.

Record Impact := {
  contributors : gmap Id Matrix;
  score : Vector;
  DAH_meta : Meta;
}.

Record Relation := {
  rel_contributors : gmap Id Matrix;
  references : gmap Id Matrix;
  rel_DAH_meta : Meta;
}.

(** [Data.entries] is a JavaScript [Map]: its keys are unique and it is
    iterated in insertion order, so it is kept as the list of its
    key/value pairs in that order. *)
Record Data := {
  entries : list (Id * Entry);
  impacts : list Impact;
  relations : list Relation;
}.

(** [indexEntry]: [map.set(entry.id, entry)] for each entry in iteration
    order, starting from the empty map. *)
Definition indexEntry (entries : list Entry) : gmap Id Entry :=
  foldl (λ map entry, <[id entry := entry]> map) ∅ entries.

(* ===================================================================== *)
(** * exts/DAH_standards.ts *)
(* ===================================================================== *)

(** luxon is an external library: a [DateTime] is identified with its
    epoch timestamp and a [Duration] with its length, both whole numbers
    of milliseconds.  [a.diff(b)] is the duration [a - b], [plus] adds, and
    [as("days")] divides the millisecond count by the 86400000
    milliseconds of a day.

    luxon holds both counts in binary64.  The timestamp of a valid
    [DateTime] is a whole number of at most 8.64e15 in magnitude, which
    binary64 holds exactly; [diff] and [plus] round their result where it
    exceeds 2^53, and [float_of_Z] below applies that rounding where a
    count is read as a number, so that the difference of two valid
    instants is read as luxon computes it.  Sums of several lengths are
    exact here, and rounded step by step in luxon.  [as("days")] is the
    correctly rounded quotient; luxon adds the whole days and the fraction
    of the remainder, which can differ from it in the last place. *)
Definition DateTime := Z.
Definition Duration := Z.

(** [DateTime#isValid], as far as the timestamp decides it: the range of
    ECMAScript time values. *)
Definition DateTime_isValid (t : DateTime) : Prop :=
  -8640000000000000 ≤ t ≤ 8640000000000000.

Definition DateTime_diff (a b : DateTime) : Duration := a - b.
Definition Duration_fromMillis (n : Z) : Duration := n.
Definition Duration_plus (a b : Duration) : Duration := a + b.

(** The binary64 value nearest to an integer. *)
Definition float_of_Z (z : Z) : float :=
  SF2Prim (binary_normalize prec emax z 0 false).

Definition Duration_as_days (d : Duration) : float :=
  (float_of_Z d / 86400000)%float.

(** [Math.abs] and [Math.min] on numbers ([Math.min] answers NaN when an
    argument is NaN). *)
Definition Math_abs (x : float) : float := PrimFloat.abs x.
Definition Math_min (x y : float) : float :=
  if PrimFloat.is_nan x then x
  else if PrimFloat.is_nan y then y
  else if PrimFloat.ltb y x then y else x.

(** A factor of DAH_factors.ts ([FactorScore], of which [EmotionFactor]
    is a subtype), as far as this extension reads it. *)
Record FactorScore := {
  name : string;
  factorIndex : nat;
  factorWeight : float;
}.

Definition WeightedEmotions := list (FactorScore * float).
Definition Contributors := gmap Id float.

Inductive Sign := Positive | Negative.
Definition Sign_value (s : Sign) : float :=
  match s with Positive => 1%float | Negative => (-1)%float end.

Inductive DatePeriod :=
  | FromToPeriod (from to : DateTime)
  | DurationPeriod (length : Duration).

(** What the extension reads from modules that are not among the sources
    (process.ts, DAH_factors.ts) and from the JavaScript runtime
    ([Math.pow]).  [combine] may throw, so it answers a [result]. *)
Record Imports := {
  Context : Type;
  combine : Context → list float → float → result float;
  newZeroVector : Context → Vector;
  Math_pow : float → float → float;
  Emotion_subscoreWeight : float;
  AP : FactorScore;
  MP : FactorScore;
}.

Definition dependencies : list string := ["DAH_factors"%string].

(** [mapClampThrow], the module-level helper at the end of the file. *)
Definition mapClampThrow (inp iMin iMax oMin oMax : float) : result float :=
  let factor := ((inp - iMin) / (inp - iMax))%float in
  if (PrimFloat.ltb factor 0 || PrimFloat.ltb 1 factor)%bool
  then Err (OutOfBounds factor iMin iMax)
  else Ok (oMin + (oMax - oMin) * factor)%float.

(** [#periodLength] and [#periodsLength]. *)
Definition periodLength (period : DatePeriod) : Duration :=
  match period with
  | DurationPeriod length => length
  | FromToPeriod from to => DateTime_diff from to
  end.

Definition periodsLength (periods : list DatePeriod) : Duration :=
  foldl (λ duration period, Duration_plus duration (periodLength period))
        (Duration_fromMillis 0) periods.

(** [#periodMeta] ([toISO] renders the duration; the payload keeps the
    duration itself). *)
Definition periodMeta (period : DatePeriod) : Meta :=
  match period with
  | DurationPeriod length =>
      MObj [("type", MStr "duration"); ("duration", MDuration length)]
  | FromToPeriod from to =>
      MObj [("type", MStr "fromto"); ("from", MDateTime from);
            ("to", MDateTime to);
            ("duration", MDuration (DateTime_diff from to))]
  end%string.

(** [#irMeta], [#impactMeta], [#emotionPairsToObject], [#emotionMeta]:
    object literals as their property lists, in source order. *)
Definition irMeta (meta : list (string * Meta)) : Meta :=
  MObj [("DAH_ir_source",
         MObj (("extension", MStr "DAH_standards")
               :: ("version", MStr "1.1.1") :: meta))]%string.

Definition impactMeta (meta : list (string * Meta)) : Meta := irMeta meta.

Definition emotionPairsToObject (emotions : WeightedEmotions) : Meta :=
  MObj (map (λ '(emotion, weight), (name emotion, MNum weight)) emotions).

Definition emotionMeta (base : float) (emotions : WeightedEmotions) : Meta :=
  MObj [("base", MNum base);
        ("emotions", emotionPairsToObject emotions)]%string.

Section Standards.
Variable env : Imports.
Implicit Types (context : Context env) (emotions : WeightedEmotions).

(** [vector(context, values)]: [vec[factor.factorIndex] = value] on a
    fresh zero vector.  Factor indices lie below the vector's length by
    the registry's invariant. *)
Definition vector context (values : list (FactorScore * float)) : Vector :=
  foldl (λ vec '(factor, value), <[factorIndex factor := value]> vec)
        (newZeroVector env context) values.

(** [#emotionVector]. *)
Definition emotionVector context (baseScore : float) emotions
  : result Vector :=
  _ ← assert (0 <? Z.of_nat (length emotions)) "empty emotion list";
  let contribFactors := map snd emotions in
  combinedFactor ←
    combine env context contribFactors (Emotion_subscoreWeight env);
  let vector := newZeroVector env context in
  Ok (foldl (λ vector '(emotion, factor),
             <[factorIndex emotion :=
                 (baseScore * Math_pow env factor 0.9 / combinedFactor)%float]>
               vector)
            vector emotions).

(** [emotion]: the object literal evaluates [score] before [DAH_meta]. *)
Definition emotion context (contributors : Contributors) (base : float)
    emotions (name : string) (meta : list (string * Meta)) : result Impact :=
  score ← emotionVector context base emotions;
  Ok {| contributors := Scalar <$> contributors;
        score := score;
        DAH_meta := impactMeta (("name", MStr name)
                                :: ("emotionArgs", emotionMeta base emotions)
                                :: meta)%string |}.

Definition cry context (contributors : Contributors) emotions
  : result Impact :=
  emotion context contributors 4.0%float emotions "cry" [].

Definition pads context (contributors : Contributors)
    (periods : list DatePeriod) emotions : result Impact :=
  let a := 0.3%float in
  let p := 1.3%float in
  let duration := periodsLength periods in
  let days := Duration_as_days duration in
  let base := (a * Math_pow env (Math_min 10 days) p)%float in
  emotion context contributors base emotions "pads"
    [("padsArgs",
      MObj [("duration", MDuration duration); ("days", MNum days);
            ("periods", MList (map periodMeta periods))])]%string.

(** [xei], the common code of [aei] and [nei]. *)
Definition xei context (contributors : Contributors) (name : string)
    (factor : float) (sign : Sign) (base : float) emotions : result Impact :=
  emotion context contributors base emotions name
    [("xeiArgs",
      MObj [("factor", MNum factor);
            ("sign", MStr (if PrimFloat.ltb 0 (Sign_value sign)
                           then "positive" else "negative"))])]%string.

Definition aei context (contributors : Contributors) (factor : float)
    (sign : Sign) emotions : result Impact :=
  m ← mapClampThrow (Math_abs factor) 0.0 1.0 2.0 3.0;
  let base := (m * Sign_value sign)%float in
  xei context contributors "aei" factor sign base emotions.

Definition nei context (contributors : Contributors) (factor : float)
    (sign : Sign) emotions : result Impact :=
  m ← mapClampThrow (Math_abs factor) 0.0 1.0 0.0 2.0;
  let base := (m * Sign_value sign)%float in
  xei context contributors "nei" factor sign base emotions.

Definition maxAEIPADS context (contributors : Contributors)
    (periods : list DatePeriod) emotions : result (list Impact) :=
  i1 ← aei context contributors 1.0 Positive emotions;
  i2 ← pads context contributors periods emotions;
  Ok [i1; i2].

Definition cryPADS context (contributors : Contributors)
    (periods : list DatePeriod) emotions : result (list Impact) :=
  i1 ← cry context contributors emotions;
  i2 ← pads context contributors periods emotions;
  Ok [i1; i2].

Definition waifu context (contributors : Contributors) (waifu : string)
    (periods : list DatePeriod) : result Impact :=
  let duration := periodsLength periods in
  let days := Duration_as_days duration in
  let base :=
    (1.2 * Math_pow env (days / 90) (factorWeight (MP env)))%float in
  emotion context contributors base [(MP env, 1.0%float)] "waifu"
    [("waifuArgs",
      MObj [("waifu", MStr waifu); ("duration", MDuration duration);
            ("days", MNum days);
            ("periods", MList (map periodMeta periods))])]%string.

Definition ehi context (contributors : Contributors) : result Impact :=
  emotion context contributors 3.5%float [(AP env, 1.0%float)] "ehi" [].

Definition epi context (contributors : Contributors) (factor : float)
  : result Impact :=
  base ← mapClampThrow factor 0.0 1.0 3.5 4.5;
  emotion context contributors base [(AP env, 1.0%float)] "epi"
    [("epiArgs", MObj [("factor", MNum factor)])]%string.

Definition jumpscare context (contributors : Contributors) : result Impact :=
  emotion context contributors 1.0%float [(MP env, 1.0%float)] "jumpscare" [].

Definition sleeplessNight context (contributors : Contributors)
  : result Impact :=
  emotion context contributors 4.0%float [(MP env, 1.0%float)]
    "sleeplessNight" [].

Definition meme context (contributors : Contributors) (strength : float)
    (periods : list DatePeriod) : result Impact :=
  if (PrimFloat.ltb strength 0.0 || PrimFloat.leb 2.0 strength)%bool
  then Err (StrengthRange strength)
  else
    let duration := periodsLength periods in
    let days := Duration_as_days duration in
    let base :=
      (strength * Math_pow env (days / 120) (factorWeight (AP env)) * 4.0)%float
    in
    emotion context contributors base [(AP env, 1.0%float)] "meme"
      [("memeArgs",
        MObj [("strength", MNum strength);
              ("periods", MList (map periodMeta periods));
              ("duration", MDuration duration)])]%string.

Definition osuSong context (contributors : Contributors)
    (personal community : float) : result Impact :=
  personalFactor ← mapClampThrow personal 0.0 1.0 0.0 0.5;
  communityFactor ← mapClampThrow community 0.0 1.0 0.0 0.2;
  Ok {| contributors := Scalar <$> contributors;
        score :=
          vector context [(AP env, (personalFactor + communityFactor)%float)];
        DAH_meta := impactMeta [("name", MStr "osuSong");
                                ("personal", MNum personal);
                                ("community", MNum community)]%string |}.

End Standards.

(* ===================================================================== *)
(** * The propagation engine (process.ts): failure checks *)
(* ===================================================================== *)

(** The edge relation of the entry→children graph over an index: [x] has
    an entry whose [children] map has the key [y]. *)
Definition edge (index : gmap Id Entry) (x y : Id) : Prop :=
  ∃ e, index !! x = Some e ∧ y ∈ dom (children e).

Definition childIds (e : Entry) : list Id := elements (dom (children e)).

(** Modelled from the spec: step 1 of the propagation engine (process.ts
    is missing from the sources).  "Verify every Id referenced by any
    Entry's children, or any Impact/Relation's contributors/references,
    exists in the index — otherwise fail with DanglingReference". *)
Definition referencedIds (d : Data) : list Id :=
  flat_map (λ kv, childIds kv.2) (entries d)
  ++ flat_map (λ i, elements (dom (contributors i))) (impacts d)
  ++ flat_map (λ r, elements (dom (rel_contributors r))
                    ++ elements (dom (references r))) (relations d).

Definition checkReferences (index : gmap Id Entry) (d : Data)
  : result unit :=
  match List.find (λ i, bool_decide (i ∉ dom index)) (referencedIds d) with
  | Some missing => Err (DanglingReference missing)
  | None => Ok tt
  end.

(** Runs [f] over a list, stopping at the first call that does not end
    normally.  [None] is a call that ran out of fuel. *)
Fixpoint each {A} (f : A → option (result unit)) (l : list A)
  : option (result unit) :=
  match l with
  | [] => Some (Ok tt)
  | x :: l =>
      match f x with
      | Some (Ok _) => each f l
      | stop => stop
      end
  end.

(** The Id sequence of the cycle closed by reaching [i] again: [i], the
    Ids entered after it on the active path (kept most recent first), and
    [i]. *)
Fixpoint enteredAfter (i : Id) (path : list Id) : list Id :=
  match path with
  | [] => []
  | x :: path => if decide (x = i) then [] else x :: enteredAfter i path
  end.

Definition cycleOf (path : list Id) (i : Id) : list Id :=
  i :: reverse (enteredAfter i path) ++ [i].

(** Modelled from the spec: step 2 of the propagation engine (process.ts
    is missing from the sources).  "Detect cycles in the entry→children
    graph (depth-first, tracking the active recursion path); a repeated Id
    on the active path fails with CyclicEntryGraph".  The recursion is
    bounded by [fuel]; [detectCycles_total] shows the bound is never
    reached. *)
Fixpoint visit (index : gmap Id Entry) (fuel : nat) (path : list Id)
    (i : Id) : option (result unit) :=
  if bool_decide (i ∈ path) then Some (Err (CyclicEntryGraph (cycleOf path i)))
  else
    match index !! i with
    | None => Some (Ok tt)
    | Some e =>
        match fuel with
        | O => None
        | S fuel => each (visit index fuel (i :: path)) (childIds e)
        end
    end.

Definition detectCycles (index : gmap Id Entry) (roots : list Id)
  : option (result unit) :=
  each (visit index (size (dom index)) []) roots.

(** Modelled from the spec: the propagation engine of process.ts, §4.5
    (missing from the sources): build the index with [indexEntry], check
    the references (step 1), detect cycles (step 2), and only then score
    the entries (steps 3 to 6).  The scoring steps rest on [combine] and
    on the matrix application of math.ts, whose definitions the spec
    leaves open, so they are the parameter [aggregate]. *)
Definition process
    (aggregate : gmap Id Entry → Data → gmap Id Vector) (d : Data)
  : option (result (gmap Id Vector)) :=
  let index := indexEntry ((entries d).*2) in
  match checkReferences index d with
  | Err e => Some (Err e)
  | Ok _ =>
      match detectCycles index (id <$> (entries d).*2) with
      | None => None
      | Some (Err e) => Some (Err e)
      | Some (Ok _) => Some (Ok (aggregate index d))
      end
  end.

(** What holds of the active path during the search: no Id twice, only
    Ids of entries, and fuel for every entry that is not on it. *)
Definition path_ok (index : gmap Id Entry) (fuel : nat) (path : list Id)
  : Prop :=
  NoDup path ∧ (∀ x, x ∈ path → x ∈ dom index) ∧
  (size (dom index) ≤ length path + fuel)%nat.

(** An Id from which a cycle can be reached. *)
Definition doomed (index : gmap Id Entry) (i : Id) : Prop :=
  ∃ y, rtc (edge index) i y ∧ tc (edge index) y y.

(** A snapshot's graph contains a cycle when some Id reaches itself along
    one or more edges. *)
Definition has_cycle (d : Data) : Prop :=
  ∃ x, tc (edge (indexEntry ((entries d).*2))) x x.

Definition references_resolve (d : Data) : Prop :=
  Forall (λ i, i ∈ dom (indexEntry ((entries d).*2))) (referencedIds d).

(* ===================================================================== *)
(** * The extension dependency resolver (ext.ts) *)
(* ===================================================================== *)

(** What the resolver sees of an extension: its name and what
    [dependencies()] returns. *)
Record Extension := {
  ext_name : string;
  ext_dependencies : list string;
}.

Definition DAH_standards_extension : Extension :=
  {| ext_name := "DAH_standards"; ext_dependencies := dependencies |}.

Definition ready (initialized : list string) (e : Extension) : bool :=
  forallb (λ d, bool_decide (d ∈ initialized)) (ext_dependencies e).

(** The first pending extension whose dependencies are all initialized,
    and the others. *)
Fixpoint pickReady (initialized : list string) (pending : list Extension)
  : option (Extension * list Extension) :=
  match pending with
  | [] => None
  | e :: pending =>
      if ready initialized e then Some (e, pending)
      else '(r, rest) ← pickReady initialized pending; Some (r, e :: rest)
  end.

(** Modelled from the spec: the resolver of ext.ts, §4.6 (missing from
    the sources).  "The resolver performs a topological sort over the
    declared-dependency graph so extensions are initialized only after all
    prerequisites; a missing dependency or a cycle among extension names
    fails with ExtensionDependencyError".  One extension is initialized
    per step, so the steps are counted by the number of pending
    extensions. *)
Fixpoint resolveLoop (steps : nat) (initialized : list string)
    (pending : list Extension) : result (list string) :=
  match steps with
  | O => Ok initialized
  | S steps =>
      match pickReady initialized pending with
      | None => Err ExtensionDependencyError
      | Some (e, rest) =>
          resolveLoop steps (initialized ++ [ext_name e]) rest
      end
  end.

Definition resolve (extensions : list Extension) : result (list string) :=
  resolveLoop (length extensions) [] extensions.

(** An initialization order in which every extension of the set is
    initialized, "only after all prerequisites". *)
Definition respects_dependencies (extensions : list Extension)
    (order : list string) : Prop :=
  ∀ e, e ∈ extensions →
    ∃ l1 l2, order = l1 ++ ext_name e :: l2 ∧
             ∀ d, d ∈ ext_dependencies e → d ∈ l1.

(** [a] is initialized strictly before [b] in an initialization order. *)
Definition initialized_before (order : list string) (a b : string) : Prop :=
  ∃ l1 l2 l3, order = l1 ++ a :: l2 ++ b :: l3.

(* ===================================================================== *)
(** * Sample inputs *)
(* ===================================================================== *)

Definition sampleEntry (i : Id) (childIds : list Id) : Entry :=
  {| id := i;
     children := list_to_map ((λ c, (c, Scalar 1%float)) <$> childIds);
     entry_DAH_meta := MObj [] |}.

(** The graph [A→B→A] of the cycle-detection property (§8). *)
Definition cyclicSnapshot : Data :=
  {| entries := [("A", sampleEntry "A" ["B"]); ("B", sampleEntry "B" ["A"])];
     impacts := [];
     relations := [] |}%string.

(** A graph without a cycle: [A→B], [A→C], [B→C]. *)
Definition acyclicSnapshot : Data :=
  {| entries := [("A", sampleEntry "A" ["B"; "C"]);
                 ("B", sampleEntry "B" ["C"]);
                 ("C", sampleEntry "C" [])];
     impacts := [];
     relations := [] |}%string.

(** The graph [A→B→A] again, with an Impact whose contributor [Z] is no
    entry. *)
Definition cyclicDanglingSnapshot : Data :=
  {| entries := [("A", sampleEntry "A" ["B"]); ("B", sampleEntry "B" ["A"])];
     impacts := [ {| contributors := {[ "Z" := Scalar 1%float ]};
                     score := [];
                     DAH_meta := MObj [] |} ];
     relations := [] |}%string.

(** A stand-in for the DAH_factors extension, which declares no
    dependency of its own here. *)
Definition sampleFactorsExtension : Extension :=
  {| ext_name := "DAH_factors"; ext_dependencies := [] |}.

(* ===================================================================== *)
(** * exts/DAH_standards.ts: the other constructors *)
(* ===================================================================== *)

(** [VisualType] and its static instances. *)
Record VisualType := {
  VisualType_name : string;
  VisualType_factor : float;
}.

Definition Animated : VisualType :=
  {| VisualType_name := "animated"; VisualType_factor := 1.0 |}.
Definition RPG3DGame : VisualType :=
  {| VisualType_name := "rpg3dGame"; VisualType_factor := 1.0 |}.
Definition AnimatedShort : VisualType :=
  {| VisualType_name := "animatedShort"; VisualType_factor := 0.8 |}.
Definition AnimatedMV : VisualType :=
  {| VisualType_name := "animatedMV"; VisualType_factor := 0.8 |}.
Definition VisualNovel : VisualType :=
  {| VisualType_name := "visualNovel"; VisualType_factor := 0.8 |}.
Definition Manga : VisualType :=
  {| VisualType_name := "manga"; VisualType_factor := 0.8 |}.
Definition AnimatedGachaCardArt : VisualType :=
  {| VisualType_name := "animatedGachaCardArt"; VisualType_factor := 0.7 |}.
Definition GachaCardArt : VisualType :=
  {| VisualType_name := "gachaCardArt"; VisualType_factor := 0.6 |}.
Definition LightNovel : VisualType :=
  {| VisualType_name := "lightNovel"; VisualType_factor := 0.5 |}.
Definition SemiAnimatedMV : VisualType :=
  {| VisualType_name := "semiAnimatedMV"; VisualType_factor := 0.5 |}.
Definition StaticMV : VisualType :=
  {| VisualType_name := "staticMV"; VisualType_factor := 0.3 |}.
Definition AlbumArt : VisualType :=
  {| VisualType_name := "albumArt"; VisualType_factor := 0.25 |}.

(** The factors of DAH_factors.ts read by the constructors below, beside
    [AP] and [MP] of [Imports]. *)
Record Factors := {
  Additional : FactorScore;
  Boredom : FactorScore;
  AM : FactorScore;
  AV : FactorScore;
  AU : FactorScore;
  AL : FactorScore;
  CP : FactorScore;
  CU : FactorScore;
  MU : FactorScore;
}.

(** [ExtConfig_DAH_standards] (an absent property is [None]) and the
    [config] the constructor of the class builds from it: the default of
    twenty minutes, overridden by the given property. *)
Record ExtConfig_DAH_standards := {
  averageAnimeEpisodeDuration : option Duration;
}.

Definition Duration_minutes (n : Z) : Duration := n * 60000.
Definition Duration_hours (n : Z) : Duration := n * 3600000.

Record Config := {
  config_averageAnimeEpisodeDuration : Duration;
}.

Definition DAH_standards_new (config : ExtConfig_DAH_standards) : Config :=
  {| config_averageAnimeEpisodeDuration :=
       default (Duration_minutes 20) (averageAnimeEpisodeDuration config) |}.

Definition relationMeta (meta : list (string * Meta)) : Meta := irMeta meta.

(** [Array.prototype.fill(value)]: every element becomes [value]. *)
Definition Array_fill (value : float) (vec : Vector) : Vector :=
  replicate (length vec) value.

(** The immediately invoked function of [consumed]: the kind of the
    consumed duration, its base score and its base duration.  A [Duration]
    is compared by its millisecond count; [mapUnits((x) => x * 12)]
    followed by [normalize()] is twelve times the duration. *)
Definition consumedBase (config : Config) (duration : Duration)
  : string * float * Duration :=
  if duration <? Duration_minutes 10 then
    ("tiny"%string, 0.1%float, Duration_minutes 5)
  else if duration <? Duration_hours 2 then
    ("short"%string, 0.3%float, Duration_hours 2)
  else
    ("long"%string, 1.0%float,
     config_averageAnimeEpisodeDuration config * 12).

Section Constructors.
Variable env : Imports.
Variable fs : Factors.
Variable config : Config.
Implicit Types (context : Context env) (contributors : Contributors).

Definition politics context contributors : Impact :=
  {| contributors := Scalar <$> contributors;
     score := vector env context [(Additional fs, 0.75%float)];
     DAH_meta := impactMeta [("name", MStr "politics")]%string |}.

Definition interestField context contributors (newField : bool) : Impact :=
  {| contributors := Scalar <$> contributors;
     score := vector env context
                [(Additional fs, if newField then 2.0%float else 1.0%float)];
     DAH_meta := impactMeta [("name", MStr "interestField")]%string |}.

Definition consumed context contributors (boredom : float)
    (duration : Duration) (name : string) (meta : list (string * Meta))
  : Impact :=
  let '(baseType, baseScore, baseDuration) := consumedBase config duration in
  let ratio := (float_of_Z duration / float_of_Z baseDuration)%float in
  let boredomScore :=
    (boredom * baseScore * Math_pow env ratio (factorWeight (Boredom fs)))%float
  in
  {| contributors := Scalar <$> contributors;
     score := vector env context [(Boredom fs, boredomScore)];
     DAH_meta :=
       impactMeta (("name", MStr name)
                   :: ("consumedArgs",
                       MObj [("boredom", MNum boredom);
                             ("duration", MDuration duration);
                             ("baseType", MStr baseType);
                             ("baseScore", MNum baseScore);
                             ("baseDuration", MDuration baseDuration);
                             ("ratio", MNum ratio)])
                   :: meta)%string |}.

(** [animeConsumed], for a whole number of episodes:
    [mapUnits((x) => x * episodes)] is [episodes] times the duration. *)
Definition animeConsumed context contributors (boredom : float)
    (episodes : Z) (episodeDuration : option Duration) : Impact :=
  let episodeDuration :=
    default (config_averageAnimeEpisodeDuration config) episodeDuration in
  consumed context contributors boredom (episodeDuration * episodes)
    "animeConsumed"
    [("animeConsumedArgs",
      MObj [("episodes", MNum (float_of_Z episodes));
            ("episodeDuration", MDuration episodeDuration)])]%string.

Definition dropped context contributors : Impact :=
  {| contributors := Scalar <$> contributors;
     score := vector env context [(Boredom fs, (-0.5)%float)];
     DAH_meta := impactMeta [("name", MStr "dropped")]%string |}.

Definition additional context contributors (value : float)
    (description : string) : Impact :=
  {| contributors := Scalar <$> contributors;
     score := vector env context [(Additional fs, value)];
     DAH_meta :=
       impactMeta [("name", MStr "additional");
                   ("additionalArgs",
                    MObj [("description", MStr description)])]%string |}.

Definition music context contributors (musicBase : float) : Impact :=
  {| contributors := Scalar <$> contributors;
     score := vector env context [(AM fs, musicBase)];
     DAH_meta :=
       impactMeta [("name", MStr "music");
                   ("musicArgs",
                    MObj [("musicBase", MNum musicBase)])]%string |}.

(** [visual]: its [DAH_meta] is a plain object literal, not passed
    through [#impactMeta]. *)
Definition visual context contributors (visualType : VisualType)
    (base unique : float) : Impact :=
  let visualScore :=
    (((base * (unique + 2.0)) / 3.0) * VisualType_factor visualType * 2.0)%float
  in
  {| contributors := Scalar <$> contributors;
     score := vector env context [(AV fs, visualScore)];
     DAH_meta :=
       MObj [("name", MStr "visual");
             ("visualArgs",
              MObj [("visualType", MStr (VisualType_name visualType));
                    ("base", MNum base);
                    ("unique", MNum unique)])]%string |}.

Definition featureMusic context contributors (reference : Id) : Relation :=
  {| rel_contributors := Scalar <$> contributors;
     references :=
       {[ reference := Diagonal (vector env context [(AM fs, 0.2%float)]) ]};
     rel_DAH_meta := relationMeta [("name", MStr "featureMusic")]%string |}.

Definition remix context contributors (reference : Id) : Relation :=
  {| rel_contributors := Scalar <$> contributors;
     references :=
       {[ reference :=
            Diagonal (Array_fill 0.2%float (newZeroVector env context)) ]};
     rel_DAH_meta := relationMeta [("name", MStr "remix")]%string |}.

(** [killedBy] and [gateOpen]: their [DAH_meta] is a plain object
    literal, not passed through [#relationMeta]. *)
Definition killedBy context contributors (reference : Id)
    (potential effect : float) : Relation :=
  {| rel_contributors := Scalar <$> contributors;
     references :=
       {[ reference :=
            Diagonal
              (map (λ x, (x * potential * effect * 2.0)%float)
                   (vector env context
                      [(AP env, 0.2%float); (AU fs, 0.1%float);
                       (CP fs, 0.05%float); (CU fs, 0.05%float);
                       (MP env, 0.2%float); (MU fs, 0.1%float);
                       (AV fs, 0.0%float); (AL fs, 0.1%float);
                       (AM fs, 0.1%float); (Boredom fs, 0.1%float);
                       (Additional fs, 0.0%float)])) ]};
     rel_DAH_meta := MObj [("name", MStr "killedBy")]%string |}.

Definition gateOpen context contributors (reference : Id) : Relation :=
  {| rel_contributors := Scalar <$> contributors;
     references := {[ reference := Diagonal (newZeroVector env context) ]};
     rel_DAH_meta := MObj [("name", MStr "gateOpen")]%string |}.

End Constructors.

(* ===================================================================== *)
(** * Helpers of the statements *)
(* ===================================================================== *)

(** [vec[factor.factorIndex] = value] for each pair in turn: the loop of
    [vector] and of [#emotionVector], from any starting vector. *)
Definition assignAll (vec : Vector) (values : list (FactorScore * float))
  : Vector :=
  foldl (λ vec '(factor, value), <[factorIndex factor := value]> vec)
        vec values.

(** The last value assigned at index [i], if any. *)
Definition lastAssigned (i : nat) (values : list (FactorScore * float))
  : option float :=
  snd <$> last (filter (λ fv, factorIndex fv.1 = i) values).

(** The number of factors of a context, as the length of its zero
    vector. *)
Definition dimension (env : Imports) (context : Context env) : nat :=
  length (newZeroVector env context).

Definition inRange (env : Imports) (context : Context env)
    (factor : FactorScore) : Prop :=
  (factorIndex factor < dimension env context)%nat.

(** Every factor the constructors name has its index in the vectors of
    the context. *)
Definition factorsInRange (env : Imports) (fs : Factors)
    (context : Context env) : Prop :=
  Forall (inRange env context)
    [AP env; MP env; Additional fs; Boredom fs; AM fs; AV fs; AU fs;
     AL fs; CP fs; CU fs; MU fs].

(** The value of a property of an object literal. *)
Definition metaField (key : string) (m : Meta) : option Meta :=
  match m with
  | MObj fields => snd <$> List.find (λ kv, String.eqb kv.1 key) fields
  | _ => None
  end.

(** The provenance stamp of [#irMeta]: extension, version, and the name
    recorded beside them. *)
Definition provenance (m : Meta) : option (Meta * Meta * Meta) :=
  source ← metaField "DAH_ir_source" m;
  extension ← metaField "extension" source;
  version ← metaField "version" source;
  name ← metaField "name" source;
  Some (extension, version, name).

(** Stand-ins for the absent modules, to instantiate statements on
    concrete inputs: a context is its number of factors, [combine] adds
    the values up and [Math.pow] answers its base.  They are placeholders
    for the parameters, not models of the absent code. *)
Definition sampleImports : Imports :=
  {| Context := nat;
     combine := λ _ values _,
       match values with
       | [] => Err EmptyCombineInput
       | _ => Ok (foldr PrimFloat.add 0%float values)
       end;
     newZeroVector := λ n, replicate n 0%float;
     Math_pow := λ x _, x;
     Emotion_subscoreWeight := 1%float;
     AP := {| name := "AP"; factorIndex := 0; factorWeight := 1%float |};
     MP := {| name := "MP"; factorIndex := 4; factorWeight := 1%float |} |}.

Definition sampleFactors : Factors :=
  {| Additional :=
       {| name := "Additional"; factorIndex := 10; factorWeight := 1%float |};
     Boredom :=
       {| name := "Boredom"; factorIndex := 9; factorWeight := 1%float |};
     AM := {| name := "AM"; factorIndex := 8; factorWeight := 1%float |};
     AV := {| name := "AV"; factorIndex := 6; factorWeight := 1%float |};
     AU := {| name := "AU"; factorIndex := 1; factorWeight := 1%float |};
     AL := {| name := "AL"; factorIndex := 7; factorWeight := 1%float |};
     CP := {| name := "CP"; factorIndex := 2; factorWeight := 1%float |};
     CU := {| name := "CU"; factorIndex := 3; factorWeight := 1%float |};
     MU := {| name := "MU"; factorIndex := 5; factorWeight := 1%float |} |}.

(** Two outcomes of a constructor that agree in everything but the
    provenance payload: the same error, or Impacts with the same score
    and the same contributors. *)
Definition same_outcome (r1 r2 : result Impact) : Prop :=
  match r1, r2 with
  | Ok i1, Ok i2 => score i1 = score i2 ∧ contributors i1 = contributors i2
  | Err e1, Err e2 => e1 = e2
  | _, _ => False
  end.

(* ===================================================================== *)
(** * indexEntry: keyed by id, last write wins *)
(* ===================================================================== *)

Lemma indexEntry_snoc (es : list Entry) (e : Entry) :
  indexEntry (es ++ [e]) = <[id e := e]> (indexEntry es).
Proof. unfold indexEntry. by rewrite foldl_app. Qed.

(** The entry stored under [k] is the last entry of the input whose id
    is [k], if there is one. *)
Lemma indexEntry_lookup (es : list Entry) (k : Id) :
  indexEntry es !! k = last (filter (λ e, id e = k) es).
Proof.
  induction es as [|e es IH] using rev_ind; [done|].
  rewrite indexEntry_snoc, filter_app, lookup_insert.
  rewrite filter_cons, filter_nil.
  destruct (decide (id e = k)) as [Hk|Hk].
  - by rewrite last_snoc.
  - by rewrite app_nil_r.
Qed.

Lemma last_filter_elem {A} (P : A → Prop) `{∀ x, Decision (P x)}
    (l : list A) (x : A) :
  last (filter P l) = Some x → P x ∧ x ∈ l.
Proof.
  intros Hl. apply last_Some in Hl as [l' Hl].
  assert (x ∈ filter P l) as Hin by (rewrite Hl; set_solver).
  by apply list_elem_of_filter in Hin.
Qed.

Lemma last_filter_is_Some {A} (P : A → Prop) `{∀ x, Decision (P x)}
    (l : list A) (x : A) :
  x ∈ l → P x → is_Some (last (filter P l)).
Proof.
  intros Hx HP. destruct (last (filter P l)) eqn:Hl; [by eexists|].
  apply last_None in Hl.
  assert (x ∈ filter P l) as Hin by (by apply list_elem_of_filter).
  rewrite Hl in Hin. by apply not_elem_of_nil in Hin.
Qed.

(** The keys of the index are the ids of the input entries. *)
Lemma elem_of_dom_indexEntry (es : list Entry) (k : Id) :
  k ∈ dom (indexEntry es) ↔ ∃ e, e ∈ es ∧ id e = k.
Proof.
  rewrite elem_of_dom, indexEntry_lookup. split.
  - intros [e He]. apply last_filter_elem in He as [? ?]. eauto.
  - intros (e & He & Hk). by apply (last_filter_is_Some _ _ e).
Qed.

(** C2. For every sequence of entries, [indexEntry] returns (it is a total
    function, nothing is raised) a map in which every stored entry is keyed
    by its own [id] and comes from the input, every input entry's id is a
    key, and on duplicate ids the later entry wins: the value under an id
    is the last input entry carrying that id, so an entry followed only by
    entries of other ids is the one stored, whatever preceded it. *)
Theorem indexEntry_last_write_wins (es : list Entry) :
  (∀ k, indexEntry es !! k = last (filter (λ e, id e = k) es)) ∧
  (∀ k e, indexEntry es !! k = Some e → id e = k ∧ e ∈ es) ∧
  (∀ e, e ∈ es → is_Some (indexEntry es !! id e)) ∧
  (∀ l1 e l2, es = l1 ++ e :: l2 → Forall (λ e', id e' ≠ id e) l2 →
     indexEntry es !! id e = Some e).
Proof.
  split; [apply indexEntry_lookup|].
  split; [|split].
  - intros k e. rewrite indexEntry_lookup.
    apply (last_filter_elem (λ e0, id e0 = k)).
  - intros e He. rewrite indexEntry_lookup.
    by apply (last_filter_is_Some _ _ e).
  - intros l1 e l2 -> Hl2. rewrite indexEntry_lookup.
    rewrite filter_app, filter_cons.
    destruct (decide (id e = id e)) as [_|]; [|done].
    assert (filter (λ e0, id e0 = id e) l2 = []) as ->.
    { induction Hl2 as [|e' l2 Hne _ IH]; [done|].
      rewrite filter_cons. by destruct (decide (id e' = id e)). }
    by rewrite last_snoc.
Qed.

(* ===================================================================== *)
(** * DAH_standards: validation at construction time *)
(* ===================================================================== *)

Section StandardsValidation.
Variable env : Imports.
Implicit Types (context : Context env) (contributors : Contributors).
Implicit Types (emotions : WeightedEmotions) (periods : list DatePeriod).

Lemma emotionVector_empty context (base : float) :
  emotionVector env context base []
  = Err (AssertionFailed "empty emotion list").
Proof. reflexivity. Qed.

Lemma emotion_empty context contributors (base : float) name meta :
  emotion env context contributors base [] name meta
  = Err (AssertionFailed "empty emotion list").
Proof. reflexivity. Qed.

Lemma bind_raises {A B} (m : result A) (f : A → result B) :
  (∀ a, raises (f a)) → raises (m ≫= f).
Proof. intros Hf. destruct m as [a|e]; [apply Hf|by exists e]. Qed.

(** C1 (the code at inputs inside and outside the declared range).  The
    helper computes [(inp - iMin) / (inp - iMax)], so on the declared
    input range [0, 1] only [0] is accepted: [0.5] gives the factor [-1]
    and [1] gives [+infinity], both rejected, and so [aei], [epi] and
    [osuSong] raise on them; the input [-1], outside the range, gives the
    factor [0.5] and is accepted.  [maxAEIPADS], which calls [aei] with
    the factor [1.0], raises on every input. *)
Theorem mapClampThrow_raises_inside_range context contributors
    (sign : Sign) emotions :
  mapClampThrow 0.5 0 1 3.5 4.5 = Err (OutOfBounds (-1) 0 1) ∧
  mapClampThrow 1 0 1 3.5 4.5 = Err (OutOfBounds infinity 0 1) ∧
  mapClampThrow 0 0 1 3.5 4.5 = Ok 3.5%float ∧
  mapClampThrow (-1) 0 1 3.5 4.5 = Ok 4%float ∧
  aei env context contributors 0.5 sign emotions
    = Err (OutOfBounds (-1) 0 1) ∧
  epi env context contributors 0.5 = Err (OutOfBounds (-1) 0 1) ∧
  (∀ community, osuSong env context contributors 0.5 community
                = Err (OutOfBounds (-1) 0 1)) ∧
  epi env context contributors (-1)
    = emotion env context contributors 4 [(AP env, 1%float)] "epi"
        [("epiArgs", MObj [("factor", MNum (-1))])]%string ∧
  (∀ periods, maxAEIPADS env context contributors periods emotions
              = Err (OutOfBounds infinity 0 1)).
Proof. repeat split; reflexivity. Qed.

(** C3 (the code at the upper end of the declared range).  The guard of
    [meme] is [strength < 0.0 || strength >= 2.0]: the strength [2],
    which lies in [0, 2], is rejected with the error whose message says
    it is not in the [0, 2] range, whatever the periods, as is every
    strength above it; a NaN strength, which is in no range, passes the
    guard. *)
Theorem meme_raises_at_strength_two context contributors periods :
  meme env context contributors 2 periods = Err (StrengthRange 2) ∧
  (∀ strength, PrimFloat.leb 2 strength = true →
     meme env context contributors strength periods
     = Err (StrengthRange strength)) ∧
  (PrimFloat.ltb nan 0 || PrimFloat.leb 2 nan)%bool = false.
Proof.
  split; [reflexivity|]. split; [|reflexivity].
  intros strength Hge. unfold meme. rewrite Hge.
  by rewrite orb_true_r.
Qed.

(** C4. Every constructor that takes a list of weighted emotions fails on
    the empty list: [emotion], [cry], [pads] and [xei] with the failed
    assertion of [#emotionVector], which stands before the call of
    [combine]; [aei] and [nei] with that assertion or, before it, with the
    range error of their factor; the pairs [maxAEIPADS] and [cryPADS]
    likewise.  So no Impact is built from zero emotions. *)
Theorem emotion_constructors_reject_empty context contributors :
  (∀ base, emotionVector env context base []
           = Err (AssertionFailed "empty emotion list")) ∧
  (∀ base name meta, emotion env context contributors base [] name meta
                     = Err (AssertionFailed "empty emotion list")) ∧
  cry env context contributors []
    = Err (AssertionFailed "empty emotion list") ∧
  (∀ periods, pads env context contributors periods []
              = Err (AssertionFailed "empty emotion list")) ∧
  (∀ name factor sign base,
     xei env context contributors name factor sign base []
     = Err (AssertionFailed "empty emotion list")) ∧
  (∀ factor sign, raises (aei env context contributors factor sign [])) ∧
  (∀ factor sign, raises (nei env context contributors factor sign [])) ∧
  (∀ periods, raises (maxAEIPADS env context contributors periods [])) ∧
  (∀ periods, raises (cryPADS env context contributors periods [])) ∧
  (∀ base emotions name meta,
     returns (emotion env context contributors base emotions name meta) →
     emotions ≠ []).
Proof.
  repeat split; try reflexivity.
  - intros factor sign. unfold aei. apply bind_raises. intros m.
    by eexists.
  - intros factor sign. unfold nei. apply bind_raises. intros m.
    by eexists.
  - intros periods. unfold maxAEIPADS. by eexists.
  - intros periods. unfold cryPADS. by eexists.
  - intros base emotions name meta [i Hi] ->. discriminate.
Qed.

End StandardsValidation.

(* ===================================================================== *)
(** * Period lengths: the sign of a day count *)
(* ===================================================================== *)

(** ** Binary64 rounding keeps a positive significand positive *)

Lemma digits2_pos_bounds (p : positive) :
  2 ^ (Z.pos (digits2_pos p) - 1) ≤ Z.pos p < 2 ^ Z.pos (digits2_pos p).
Proof.
  induction p as [p IH|p IH|]; simpl digits2_pos.
  - rewrite Pos2Z.inj_succ.
    replace (Z.succ (Z.pos (digits2_pos p)) - 1)
      with (Z.succ (Z.pos (digits2_pos p) - 1)) by lia.
    rewrite !Z.pow_succ_r by lia. lia.
  - rewrite Pos2Z.inj_succ.
    replace (Z.succ (Z.pos (digits2_pos p)) - 1)
      with (Z.succ (Z.pos (digits2_pos p) - 1)) by lia.
    rewrite !Z.pow_succ_r by lia. lia.
  - split; [reflexivity | reflexivity].
Qed.

Lemma Zdigits2_lower (m : Z) : 0 < m → 2 ^ (Zdigits2 m - 1) ≤ m.
Proof.
  destruct m as [|p|p]; try lia. intros _. apply digits2_pos_bounds.
Qed.

Lemma Zdigits2_ge (m k : Z) : 0 ≤ k → 2 ^ k ≤ m → k + 1 ≤ Zdigits2 m.
Proof.
  intros Hk Hm.
  assert (0 < m) by (pose proof (Z.pow_pos_nonneg 2 k); lia).
  destruct m as [|p|p]; try lia. simpl.
  destruct (digits2_pos_bounds p) as [_ Hu].
  assert (2 ^ k < 2 ^ Z.pos (digits2_pos p)) as Hlt by lia.
  apply Z.pow_lt_mono_r_iff in Hlt; lia.
Qed.

Lemma Zdigits2_pos (m : Z) : 0 < m → 1 ≤ Zdigits2 m.
Proof. destruct m; simpl; lia. Qed.

Lemma shr_m_shr_1 (mrs : shr_record) :
  0 ≤ shr_m mrs → shr_m (shr_1 mrs) = shr_m mrs / 2.
Proof.
  destruct mrs as [m r s]. simpl. intros Hm. rewrite <- Z.div2_div.
  destruct m as [|[p|p|]|p]; try reflexivity; lia.
Qed.

Lemma shr_m_iter_pos (n : positive) (mrs : shr_record) :
  0 ≤ shr_m mrs →
  shr_m (SpecFloat.iter_pos shr_1 n mrs) = shr_m mrs / 2 ^ Z.pos n.
Proof.
  revert mrs. induction n as [n IH|n IH|]; intros mrs Hm; simpl SpecFloat.iter_pos.
  - assert (0 ≤ shr_m (shr_1 mrs)) as H1
      by (rewrite shr_m_shr_1 by done; apply Z.div_pos; lia).
    assert (0 ≤ shr_m (SpecFloat.iter_pos shr_1 n (shr_1 mrs))) as H2
      by (rewrite IH by done; apply Z.div_pos; [done | apply Z.pow_pos_nonneg; lia]).
    rewrite IH, IH, shr_m_shr_1 by done.
    pose proof (Z.pow_pos_nonneg 2 (Z.pos n)).
    rewrite !Z.div_div by lia. f_equal.
    rewrite Pos2Z.inj_xI.
    replace (2 * Z.pos n + 1) with (1 + (Z.pos n + Z.pos n)) by lia.
    rewrite !Z.pow_add_r by lia. change (2 ^ 1) with 2. lia.
  - assert (0 ≤ shr_m (SpecFloat.iter_pos shr_1 n mrs)) as H2
      by (rewrite IH by done; apply Z.div_pos; [done | apply Z.pow_pos_nonneg; lia]).
    rewrite IH, IH by done.
    pose proof (Z.pow_pos_nonneg 2 (Z.pos n)).
    rewrite !Z.div_div by lia. f_equal.
    replace (Z.pos n~0) with (Z.pos n + Z.pos n) by lia.
    rewrite Z.pow_add_r by lia. done.
  - rewrite shr_m_shr_1 by done. done.
Qed.


Lemma Zdigits2_shift (m n : Z) :
  0 < m → 0 ≤ n → n < Zdigits2 m →
  0 < m / 2 ^ n ∧ Zdigits2 m - n ≤ Zdigits2 (m / 2 ^ n).
Proof.
  intros Hm Hn Hlt. pose proof (Zdigits2_lower m Hm) as Hlow.
  assert (2 ^ (Zdigits2 m - 1 - n) ≤ m / 2 ^ n) as Hq.
  { rewrite Z.pow_sub_r by lia.
    apply Z.div_le_mono; [apply Z.pow_pos_nonneg; lia | done]. }
  pose proof (Z.pow_pos_nonneg 2 (Zdigits2 m - 1 - n)).
  split; [lia|]. apply Zdigits2_ge in Hq; lia.
Qed.

Lemma shr_fexp_positive (m e : Z) (l : location) mrs' e' :
  0 < m → emin < Zdigits2 m + e →
  shr_fexp prec emax m e l = (mrs', e') →
  0 < shr_m mrs' ∧ Zdigits2 m + e ≤ Zdigits2 (shr_m mrs') + e'.
Proof.
  intros Hm HD. unfold shr_fexp, shr.
  assert (shr_m (shr_record_of_loc m l) = m) as Hrec
    by (by destruct l as [|[]]).
  assert (fexp prec emax (Zdigits2 m + e) = Z.max (Zdigits2 m + e - 53) (-1074))
    as -> by reflexivity.
  change emin with (-1074) in HD.
  destruct (Z.max _ _ - e) as [|n|n] eqn:Hn.
  - intros [= <- <-]. rewrite Hrec. lia.
  - intros [= <- <-]. rewrite shr_m_iter_pos, Hrec by (rewrite Hrec; lia).
    destruct (Zdigits2_shift m (Z.pos n)) as [? ?]; lia.
  - intros [= <- <-]. rewrite Hrec. lia.
Qed.

Lemma round_nearest_even_positive (m : Z) (l : location) :
  0 < m →
  0 < round_nearest_even m l ∧ Zdigits2 m ≤ Zdigits2 (round_nearest_even m l).
Proof.
  intros Hm.
  assert (m ≤ round_nearest_even m l) as Hle.
  { unfold round_nearest_even.
    destruct l as [|[]]; try destruct (Z.even m); lia. }
  split; [lia|]. pose proof (Zdigits2_lower m Hm).
  pose proof (Zdigits2_pos m Hm).
  assert (2 ^ (Zdigits2 m - 1) ≤ round_nearest_even m l) as Hq by lia.
  apply Zdigits2_ge in Hq; lia.
Qed.

(** A positive significand above the subnormal range never rounds to zero or
    to a value of the other sign. *)
Lemma binary_round_aux_nonzero (sx : bool) (mx ex : Z) (lx : location) :
  0 < mx → emin < Zdigits2 mx + ex →
  (∃ m e, binary_round_aux prec emax sx mx ex lx = S754_finite sx m e ∧
          Zdigits2 mx + ex ≤ Z.pos (digits2_pos m) + e) ∨
  binary_round_aux prec emax sx mx ex lx = S754_infinity sx.
Proof.
  intros Hm HD. unfold binary_round_aux.
  destruct (shr_fexp prec emax mx ex lx) as [mrs' e'] eqn:H1.
  apply shr_fexp_positive in H1 as [Hp1 HD1]; [|done..].
  destruct (round_nearest_even_positive (shr_m mrs') (loc_of_shr_record mrs') Hp1)
    as [Hp2 HD2].
  destruct (shr_fexp prec emax _ e' loc_Exact) as [mrs'' e''] eqn:H2.
  apply shr_fexp_positive in H2 as [Hp3 HD3]; [|lia..].
  destruct (shr_m mrs'') as [|m|m] eqn:Hm''; try lia.
  destruct (e'' <=? emax - prec); [left|by right].
  exists m, e''. split; [done|]. simpl in HD3. lia.
Qed.

Lemma Pos_iter_xO (p k : positive) :
  Z.pos (Pos.iter xO p k) = Z.pos p * 2 ^ Z.pos k.
Proof.
  induction k as [|k IH] using Pos.peano_ind.
  - simpl. lia.
  - rewrite Pos.iter_succ, Pos2Z.inj_xO, IH, Pos2Z.inj_succ, Z.pow_succ_r by lia.
    lia.
Qed.

Lemma binary_round_nonzero (sx : bool) (p : positive) :
  (∃ m e, binary_round prec emax sx p 0 = S754_finite sx m e ∧
          1 ≤ Z.pos (digits2_pos m) + e) ∨
  binary_round prec emax sx p 0 = S754_infinity sx.
Proof.
  unfold binary_round.
  destruct (shl_align p 0 (fexp prec emax (Z.pos (digits2_pos p) + 0))) as [mz ez] eqn:Hal.
  assert (1 ≤ Zdigits2 (Z.pos mz) + ez) as HD.
  { revert Hal. unfold shl_align.
    assert (fexp prec emax (Z.pos (digits2_pos p) + 0)
            = Z.max (Z.pos (digits2_pos p) + 0 - 53) (-1074)) as -> by reflexivity.
    destruct (Z.max _ _ - 0) as [|k|k] eqn:Hk; intros [= <- <-]; simpl Zdigits2;
      try lia.
    pose proof (digits2_pos_bounds p) as [Hlow _].
    assert (2 ^ (Z.pos (digits2_pos p) - 1 + Z.pos k) ≤ Z.pos (Pos.iter xO p k)) as Hq.
    { rewrite Pos_iter_xO, Z.pow_add_r by lia.
      apply Z.mul_le_mono_nonneg_r; [apply Z.pow_nonneg; lia | done]. }
    apply Zdigits2_ge in Hq; [|lia]. simpl in Hq. lia. }
  destruct (binary_round_aux_nonzero sx (Z.pos mz) ez loc_Exact) as [(m & e & -> & ?)| ->];
    [lia | change emin with (-1074); lia | left | by right].
  exists m, e. split; [done | lia].
Qed.

Lemma binary_round_aux_opp (mx ex : Z) (lx : location) :
  binary_round_aux prec emax true mx ex lx
  = SFopp (binary_round_aux prec emax false mx ex lx).
Proof.
  unfold binary_round_aux.
  destruct (shr_fexp prec emax mx ex lx) as [mrs' e'].
  destruct (shr_fexp prec emax _ e' loc_Exact) as [mrs'' e''].
  destruct (shr_m mrs''); try reflexivity.
  by destruct (e'' <=? emax - prec).
Qed.

Lemma valid_binary_SFopp (x : spec_float) :
  valid_binary prec emax (SFopp x) = valid_binary prec emax x.
Proof. by destruct x. Qed.

Lemma Prim2SF_float_of_Z_neg (p : positive) :
  Z.pos p < 2 ^ 63 →
  Prim2SF (float_of_Z (Z.neg p)) = binary_round prec emax true p 0.
Proof.
  intros Hp. unfold float_of_Z. apply FloatAxioms.Prim2SF_SF2Prim.
  change (binary_normalize prec emax (Z.neg p) 0 false)
    with (binary_round prec emax true p 0).
  unfold binary_round. destruct (shl_align p 0 (fexp prec emax (Z.pos (digits2_pos p) + 0))) as [mz ez] eqn:Hal.
  rewrite binary_round_aux_opp, valid_binary_SFopp.
  pose proof (FloatAxioms.of_uint63_spec (Uint63Axioms.of_Z (Z.pos p))) as Hspec.
  rewrite Uint63.of_Z_spec, Z.mod_small in Hspec
    by (change Uint63Axioms.wB with (2 ^ 63); lia).
  change (binary_normalize prec emax (Z.pos p) 0 false)
    with (binary_round prec emax false p 0) in Hspec.
  unfold binary_round in Hspec. rewrite Hal in Hspec. rewrite <- Hspec.
  apply FloatAxioms.Prim2SF_valid.
Qed.

Lemma SFdiv_core_binary_positive (m1 m2 : positive) (e1 e2 : Z) q e' l :
  emin < Zdigits2 (Z.pos m1) + e1 - (Zdigits2 (Z.pos m2) + e2) →
  SFdiv_core_binary prec emax (Z.pos m1) e1 (Z.pos m2) e2 = (q, e', l) →
  0 < q ∧
  Zdigits2 (Z.pos m1) + e1 - (Zdigits2 (Z.pos m2) + e2) ≤ Zdigits2 q + e'.
Proof.
  intros HD. unfold SFdiv_core_binary.
  set (d1 := Zdigits2 (Z.pos m1)) in *. set (d2 := Zdigits2 (Z.pos m2)) in *.
  assert (fexp prec emax (d1 + e1 - (d2 + e2))
          = Z.max (d1 + e1 - (d2 + e2) - 53) (-1074)) as -> by reflexivity.
  change emin with (-1074) in HD.
  set (e0 := Z.min _ (e1 - e2)). set (s := e1 - e2 - e0).
  assert (0 ≤ s) as Hs by lia.
  set (m' := match s with Z.pos _ => Z.shiftl (Z.pos m1) s | Z0 => Z.pos m1 | _ => 0 end).
  assert (m' = Z.pos m1 * 2 ^ s) as Hm'.
  { subst m'. destruct s as [|k|k] eqn:Hk; try lia.
    by rewrite Z.shiftl_mul_pow2. }
  clearbody m'.
  destruct (Z.div_eucl m' (Z.pos m2)) as [q0 r] eqn:Hdiv.
  intros [= <- <- _].
  assert (q0 = m' / Z.pos m2) as -> by (unfold Z.div; by rewrite Hdiv).
  pose proof (Zdigits2_lower (Z.pos m1) eq_refl) as Hl1. fold d1 in Hl1.
  pose proof (digits2_pos_bounds m2) as [_ Hu2]. change (Z.pos (digits2_pos m2)) with d2 in Hu2.
  assert (1 ≤ d1) by (apply Zdigits2_pos; lia).
  assert (1 ≤ d2) by (apply Zdigits2_pos; lia).
  set (k := d1 + s - 1 - d2). assert (0 ≤ k) as Hk by lia.
  assert (2 ^ k ≤ m' / Z.pos m2) as Hq.
  { apply Z.div_le_lower_bound; [lia|]. rewrite Hm'.
    pose proof (Z.pow_pos_nonneg 2 k). pose proof (Z.pow_pos_nonneg 2 s).
    transitivity (2 ^ d2 * 2 ^ k); [nia|].
    rewrite <- Z.pow_add_r by lia.
    replace (d2 + k) with (d1 - 1 + s) by lia.
    rewrite Z.pow_add_r by lia. nia. }
  pose proof (Z.pow_pos_nonneg 2 k).
  split; [lia|]. apply Zdigits2_ge in Hq; lia.
Qed.

(** A negative number divided by a positive one is negative: the quotient
    of the significands is at least one unit of the result's format. *)
Lemma SFdiv_negative_by_positive (x : spec_float) (m2 : positive) (e2 : Z) :
  ((∃ m e, x = S754_finite true m e ∧ 1 ≤ Z.pos (digits2_pos m) + e) ∨
   x = S754_infinity true) →
  Z.pos (digits2_pos m2) + e2 < 1000 →
  (∃ m e, SFdiv prec emax x (S754_finite false m2 e2) = S754_finite true m e) ∨
  SFdiv prec emax x (S754_finite false m2 e2) = S754_infinity true.
Proof.
  intros [(m & e & -> & HD)| ->] Hy; [|by right].
  unfold SFdiv.
  destruct (SFdiv_core_binary prec emax (Z.pos m) e (Z.pos m2) e2)
    as [[q e'] l] eqn:Hdiv.
  apply SFdiv_core_binary_positive in Hdiv as [Hq HDq];
    [|simpl Zdigits2; change emin with (-1074); lia].
  simpl Zdigits2 in HDq.
  destruct (binary_round_aux_nonzero (xorb true false) q e' l)
    as [(m' & e'' & -> & _)| ->];
    [done | change emin with (-1074); lia | left; by eexists _, _ | by right].
Qed.

(** The day count of a negative duration is a negative number (one with
    the sign bit set that is neither a zero nor NaN). *)
Lemma Duration_as_days_negative (d : Duration) :
  - 2 ^ 63 < d < 0 →
  (∃ m e, Prim2SF (Duration_as_days d) = S754_finite true m e) ∨
  Prim2SF (Duration_as_days d) = S754_infinity true.
Proof.
  intros Hd. destruct d as [|p|p]; try lia.
  unfold Duration_as_days.
  rewrite FloatAxioms.div_spec, Prim2SF_float_of_Z_neg by lia.
  change (Prim2SF 86400000) with (S754_finite false 5798205849600000 (-26)).
  apply SFdiv_negative_by_positive; [apply binary_round_nonzero | done].
Qed.

Lemma ltb_negative_nonnegative (x y : float) (m2 : positive) (e2 : Z) :
  ((∃ m e, Prim2SF x = S754_finite true m e) ∨
   Prim2SF x = S754_infinity true) →
  (Prim2SF y = S754_finite false m2 e2 ∨ Prim2SF y = S754_zero false) →
  PrimFloat.ltb x y = true.
Proof.
  rewrite FloatAxioms.ltb_spec.
  by intros [(m & e & ->)| ->] [-> | ->].
Qed.

Lemma Math_min_of_negative (x y : float) (m2 : positive) (e2 : Z) :
  ((∃ m e, Prim2SF x = S754_finite true m e) ∨
   Prim2SF x = S754_infinity true) →
  Prim2SF y = S754_finite false m2 e2 →
  Math_min y x = x.
Proof.
  intros Hx Hy. unfold Math_min.
  assert (PrimFloat.is_nan y = false) as ->.
  { unfold PrimFloat.is_nan. rewrite FloatAxioms.eqb_spec, Hy. unfold SFeqb.
    simpl. by rewrite Z.compare_refl, Pos.compare_cont_refl. }
  destruct (PrimFloat.is_nan x); [done|].
  by rewrite (ltb_negative_nonnegative x y m2 e2) by auto.
Qed.

(** C9. For a from/to period of valid instants whose [to] is strictly
    later than its [from], [#periodLength] is [from.diff(to)], a strictly
    negative duration.  Alone in a period list it is the total of
    [#periodsLength], and the day count of that total is a negative
    number.  [pads], [waifu] and [meme] compute their base from this
    negative day count: the clamp of [pads] leaves it as it is, and [meme]
    reads it at every strength it accepts. *)
Theorem forward_period_counts_negative (from to : DateTime)
    (Hfrom : DateTime_isValid from) (Hto : DateTime_isValid to)
    (Hforward : from < to) :
  let duration := periodsLength [FromToPeriod from to] in
  let days := Duration_as_days duration in
  periodLength (FromToPeriod from to) = DateTime_diff from to ∧
  periodLength (FromToPeriod from to) < 0 ∧
  duration = periodLength (FromToPeriod from to) ∧
  PrimFloat.ltb days 0 = true ∧
  (∀ env context contributors emotions,
     pads env context contributors [FromToPeriod from to] emotions
     = emotion env context contributors
         (0.3 * Math_pow env days 1.3)%float emotions "pads"
         [("padsArgs",
           MObj [("duration", MDuration duration); ("days", MNum days);
                 ("periods", MList [periodMeta (FromToPeriod from to)])])
         ]%string) ∧
  (∀ env context contributors name,
     waifu env context contributors name [FromToPeriod from to]
     = emotion env context contributors
         (1.2 * Math_pow env (days / 90) (factorWeight (MP env)))%float
         [(MP env, 1%float)] "waifu"
         [("waifuArgs",
           MObj [("waifu", MStr name); ("duration", MDuration duration);
                 ("days", MNum days);
                 ("periods", MList [periodMeta (FromToPeriod from to)])])
         ]%string) ∧
  (∀ env context contributors strength,
     (PrimFloat.ltb strength 0 || PrimFloat.leb 2 strength)%bool = false →
     meme env context contributors strength [FromToPeriod from to]
     = emotion env context contributors
         (strength * Math_pow env (days / 120) (factorWeight (AP env)) * 4)%float
         [(AP env, 1%float)] "meme"
         [("memeArgs",
           MObj [("strength", MNum strength);
                 ("periods", MList [periodMeta (FromToPeriod from to)]);
                 ("duration", MDuration duration)])]%string).
Proof.
  intros duration days.
  assert (duration = from - to) as Hduration by reflexivity.
  assert ((∃ m e, Prim2SF days = S754_finite true m e) ∨
          Prim2SF days = S754_infinity true) as Hdays.
  { apply Duration_as_days_negative. unfold DateTime_isValid in *. lia. }
  split; [reflexivity|]. split; [simpl; unfold DateTime_diff; lia|].
  split; [reflexivity|]. split; [|split; [|split]].
  - apply (ltb_negative_nonnegative _ _ 1 0); [done | by right].
  - intros env context contributors emotions. unfold pads.
    fold duration. fold days.
    by rewrite (Math_min_of_negative days 10 5629499534213120 (-49)).
  - reflexivity.
  - intros env context contributors strength Hstrength. unfold meme.
    by rewrite Hstrength.
Qed.

Lemma forward_period_counts_negative_witness :
  DateTime_isValid 0 ∧ DateTime_isValid 86400000 ∧ 0 < 86400000 ∧
  Duration_as_days (periodsLength [FromToPeriod 0 86400000]) = (-1)%float ∧
  PrimFloat.ltb (Duration_as_days (periodsLength [FromToPeriod 0 86400000])) 0
  = true.
Proof.
  assert (DateTime_isValid 0) as H0 by (unfold DateTime_isValid; lia).
  assert (DateTime_isValid 86400000) as H1 by (unfold DateTime_isValid; lia).
  split; [exact H0|]. split; [exact H1|]. split; [lia|].
  split; [reflexivity|].
  exact (proj1 (proj2 (proj2 (proj2
           (forward_period_counts_negative 0 86400000 H0 H1 eq_refl))))).
Defined.

(* ===================================================================== *)
(** * The propagation engine: cycles are detected *)
(* ===================================================================== *)

Section Each.
Context {A : Type} (f : A → option (result unit)).

Lemma each_total (l : list A) :
  (∀ x, x ∈ l → f x ≠ None) → each f l ≠ None.
Proof.
  induction l as [|x l IH]; intros Hf; simpl; [done|].
  pose proof (Hf x ltac:(left)) as Hx.
  destruct (f x) as [[[]|e]|]; [|done|done].
  apply IH. intros y Hy. apply Hf. by right.
Qed.

Lemma each_err (l : list A) (e : error) :
  each f l = Some (Err e) → ∃ x, x ∈ l ∧ f x = Some (Err e).
Proof.
  induction l as [|x l IH]; simpl; [done|].
  destruct (f x) as [[[]|e']|] eqn:Hx; [|intros [= ->]|done].
  - intros (y & Hy & Hfy)%IH. exists y. split; [by right|done].
  - exists x. split; [by left|done].
Qed.

Lemma each_fails (l : list A) (x : A) (e : error) :
  (∀ y, y ∈ l → f y ≠ None) → x ∈ l → f x = Some (Err e) →
  ∃ e', each f l = Some (Err e').
Proof.
  intros Htotal Hx Hfx.
  pose proof (each_total l Htotal) as Hsome.
  destruct (each f l) as [[[]|e']|] eqn:Heach; [|by eexists|done].
  exfalso. clear Htotal Hsome.
  induction l as [|y l IH]; [by apply not_elem_of_nil in Hx|].
  simpl in Heach. apply elem_of_cons in Hx as [<-|Hx].
  - by rewrite Hfx in Heach.
  - destruct (f y) as [[[]|?]|]; [by apply IH|done|done].
Qed.
End Each.

Section CycleDetection.
Variable index : gmap Id Entry.

Local Abbreviation path_ok := (path_ok index).
Local Abbreviation doomed := (doomed index).

Lemma path_ok_nil : path_ok (size (dom index)) [].
Proof.
  split; [constructor|]. split; [by intros x ?%not_elem_of_nil|].
  simpl. lia.
Qed.

Lemma path_ok_cons (fuel : nat) (path : list Id) (i : Id) :
  path_ok (S fuel) path → i ∉ path → i ∈ dom index →
  path_ok fuel (i :: path).
Proof.
  intros (Hnd & Hsub & Hsize) Hi Hdom. split; [by constructor|]. split.
  - intros x [->|Hx]%elem_of_cons; [done|by apply Hsub].
  - simpl. lia.
Qed.

(** A path without fuel left holds every entry. *)
Lemma path_full (path : list Id) (i : Id) :
  path_ok 0 path → i ∈ dom index → i ∈ path.
Proof.
  intros (Hnd & Hsub & Hsize) Hi.
  assert (list_to_set path ⊆ dom index) as Hincl.
  { intros x Hx%elem_of_list_to_set. by apply Hsub. }
  assert (size (dom index) ≤ size (list_to_set (C:=gset Id) path))%nat
    as Hle by (rewrite size_list_to_set by done; lia).
  apply set_subseteq_size_equiv in Hincl; [|done].
  apply (elem_of_list_to_set (C:=gset Id)). by apply Hincl.
Qed.

Lemma visit_total (fuel : nat) (path : list Id) (i : Id) :
  path_ok fuel path → visit index fuel path i ≠ None.
Proof.
  revert path i. induction fuel as [|fuel IH]; intros path i Hok; simpl.
  - case_bool_decide as Hin; [done|].
    destruct (index !! i) as [e|] eqn:He; [|done].
    exfalso. apply Hin, path_full; [done|]. apply elem_of_dom. by eexists.
  - case_bool_decide as Hin; [done|].
    destruct (index !! i) as [e|] eqn:He; [|done].
    apply each_total. intros c _. apply IH, path_ok_cons; [done..|].
    apply elem_of_dom. by eexists.
Qed.

(** The search fails in one way only. *)
Lemma visit_err (fuel : nat) (path : list Id) (i : Id) (e : error) :
  visit index fuel path i = Some (Err e) → ∃ cyc, e = CyclicEntryGraph cyc.
Proof.
  revert path i. induction fuel as [|fuel IH]; intros path i; simpl.
  - case_bool_decide; [intros [= <-]; by eexists|].
    by destruct (index !! i).
  - case_bool_decide; [intros [= <-]; by eexists|].
    destruct (index !! i) as [en|]; [|done].
    intros (c & _ & Hc)%each_err. by eapply IH.
Qed.

Lemma doomed_step (i : Id) :
  doomed i →
  ∃ e c, index !! i = Some e ∧ c ∈ childIds e ∧ doomed c.
Proof.
  unfold childIds. intros (y & Hiy & Hyy). destruct Hiy as [i|i c y (e & He & Hc) Hcy].
  - inversion Hyy as [? ? (e & He & Hc)|? c ? (e & He & Hc) Hci]; subst.
    + exists e, i. split; [done|]. split; [by apply elem_of_elements|].
      exists i. split; [done|]. by apply tc_once; exists e.
    + exists e, c. split; [done|]. split; [by apply elem_of_elements|].
      exists i. split; [by apply tc_rtc|done].
  - exists e, c. split; [done|]. split; [by apply elem_of_elements|].
    by exists y.
Qed.

Lemma visit_doomed (fuel : nat) (path : list Id) (i : Id) :
  path_ok fuel path → doomed i →
  ∃ cyc, visit index fuel path i = Some (Err (CyclicEntryGraph cyc)).
Proof.
  revert path i. induction fuel as [|fuel IH]; intros path i Hok Hi.
  - simpl. case_bool_decide as Hin; [by eexists|].
    apply doomed_step in Hi as (e & c & He & _). exfalso.
    apply Hin, path_full; [done|]. apply elem_of_dom. by eexists.
  - simpl. case_bool_decide as Hin; [by eexists|].
    apply doomed_step in Hi as (e & c & He & Hc & Hdoomed). rewrite He.
    assert (path_ok fuel (i :: path)) as Hok'.
    { apply path_ok_cons; [done..|]. apply elem_of_dom. by eexists. }
    destruct (IH (i :: path) c Hok' Hdoomed) as [cyc Hcyc].
    destruct (each_fails (visit index fuel (i :: path)) (childIds e) c _
                (λ y _, visit_total fuel (i :: path) y Hok') Hc Hcyc)
      as [e' He'].
    rewrite He'. apply each_err in He' as (y & _ & Hy).
    apply visit_err in Hy as [cyc' ->]. by eexists.
Qed.

Lemma detectCycles_total (roots : list Id) :
  detectCycles index roots ≠ None.
Proof.
  apply each_total. intros x _. apply visit_total, path_ok_nil.
Qed.

Lemma detectCycles_err (roots : list Id) (e : error) :
  detectCycles index roots = Some (Err e) → ∃ cyc, e = CyclicEntryGraph cyc.
Proof. intros (x & _ & Hx)%each_err. by eapply visit_err. Qed.

Lemma detectCycles_cyclic (roots : list Id) (x : Id) :
  tc (edge index) x x → x ∈ roots →
  ∃ cyc, detectCycles index roots = Some (Err (CyclicEntryGraph cyc)).
Proof.
  intros Hxx Hx.
  destruct (visit_doomed (size (dom index)) [] x path_ok_nil) as [cyc Hcyc].
  { exists x. split; [done|done]. }
  destruct (each_fails (visit index (size (dom index)) []) roots x _
              (λ y _, visit_total _ [] y path_ok_nil) Hx Hcyc) as [e He].
  unfold detectCycles. rewrite He.
  apply each_err in He as (y & _ & Hy).
  apply visit_err in Hy as [cyc' ->]. by eexists.
Qed.
End CycleDetection.

Lemma edge_source_is_entry (es : list Entry) (x y : Id) :
  tc (edge (indexEntry es)) x y → x ∈ id <$> es.
Proof.
  intros Hxy.
  assert (x ∈ dom (indexEntry es)) as Hdom.
  { apply elem_of_dom.
    inversion Hxy as [? ? (e & He & _)|? ? ? (e & He & _) _]; by eexists. }
  apply elem_of_dom_indexEntry in Hdom as (e & He & <-).
  by apply list_elem_of_fmap_2.
Qed.

Lemma checkReferences_resolve (d : Data) :
  references_resolve d →
  checkReferences (indexEntry ((entries d).*2)) d = Ok tt.
Proof.
  unfold references_resolve, checkReferences. intros Hall.
  destruct (List.find _ _) as [missing|] eqn:Hfind; [|done].
  apply find_some in Hfind as [Hin Hmissing].
  apply bool_decide_eq_true in Hmissing.
  rewrite Forall_forall in Hall. exfalso. apply Hmissing, Hall.
  by apply list_elem_of_In.
Qed.

Lemma checkReferences_dangling (d : Data) :
  ¬ references_resolve d →
  ∃ missing,
    checkReferences (indexEntry ((entries d).*2)) d
    = Err (DanglingReference missing) ∧
    missing ∈ referencedIds d ∧
    missing ∉ dom (indexEntry ((entries d).*2)).
Proof.
  unfold references_resolve, checkReferences. intros Hnot.
  destruct (List.find _ _) as [missing|] eqn:Hfind.
  - apply find_some in Hfind as [Hin Hmissing].
    apply bool_decide_eq_true in Hmissing. exists missing.
    split; [done|]. split; [by apply list_elem_of_In|done].
  - exfalso. apply Hnot, Forall_forall. intros i Hi%list_elem_of_In.
    apply (find_none _ _ Hfind) in Hi.
    apply bool_decide_eq_false in Hi. by apply dec_stable.
Qed.

(** The engine always answers: the bound on the search is never reached. *)
Lemma process_total aggregate (d : Data) : is_Some (process aggregate d).
Proof.
  unfold process. destruct (checkReferences _ d); [|by eexists].
  pose proof (detectCycles_total (indexEntry ((entries d).*2))
                (id <$> (entries d).*2)) as Htotal.
  destruct (detectCycles _ _) as [[[]|e]|]; [by eexists..|done].
Qed.

(** C7, as amended.  For every snapshot whose entry→children graph
    contains a cycle the engine answers with a failure, so with no score
    for any entry: with CyclicEntryGraph when every referenced Id
    resolves, and with the DanglingReference of step 1 when one does
    not. *)
Theorem cyclic_snapshot_fails aggregate (d : Data) (Hcycle : has_cycle d) :
  (∀ scores, process aggregate d ≠ Some (Ok scores)) ∧
  (references_resolve d →
   ∃ cyc, process aggregate d = Some (Err (CyclicEntryGraph cyc))) ∧
  (¬ references_resolve d →
   ∃ missing, process aggregate d = Some (Err (DanglingReference missing)) ∧
              missing ∈ referencedIds d ∧
              missing ∉ dom (indexEntry ((entries d).*2))).
Proof.
  destruct Hcycle as [x Hx].
  pose proof (detectCycles_cyclic _ _ x Hx (edge_source_is_entry _ _ _ Hx))
    as [cyc Hcyc].
  split; [|split].
  - intros scores. unfold process.
    destruct (checkReferences _ d); [|done]. by rewrite Hcyc.
  - intros Hres. exists cyc. unfold process.
    by rewrite (checkReferences_resolve d Hres), Hcyc.
  - intros (missing & Hcheck & Hin & Hnot)%checkReferences_dangling.
    exists missing. unfold process. by rewrite Hcheck.
Qed.

(** A graph without a cycle passes both checks and is scored. *)
Lemma acyclicSnapshot_is_scored aggregate :
  process aggregate acyclicSnapshot
  = Some (Ok (aggregate (indexEntry ((entries acyclicSnapshot).*2))
                acyclicSnapshot)).
Proof. by vm_compute. Qed.

Lemma cyclicSnapshot_has_cycle : has_cycle cyclicSnapshot.
Proof.
  exists "A"%string. apply tc_l with "B"%string; [|apply tc_once].
  - exists (sampleEntry "A" ["B"%string]). split; [done|].
    apply elem_of_dom. exists (Scalar 1%float). by vm_compute.
  - exists (sampleEntry "B" ["A"%string]). split; [done|].
    apply elem_of_dom. exists (Scalar 1%float). by vm_compute.
Qed.

Lemma cyclicSnapshot_resolves : references_resolve cyclicSnapshot.
Proof. apply (bool_decide_unpack _). by vm_compute. Qed.

Lemma cyclic_snapshot_fails_witness :
  has_cycle cyclicSnapshot ∧
  references_resolve cyclicSnapshot ∧
  ∀ aggregate,
    ∃ cyc, process aggregate cyclicSnapshot
           = Some (Err (CyclicEntryGraph cyc)).
Proof.
  split; [exact cyclicSnapshot_has_cycle|].
  split; [exact cyclicSnapshot_resolves|]. intros aggregate.
  exact (proj1 (proj2 (cyclic_snapshot_fails aggregate cyclicSnapshot
                         cyclicSnapshot_has_cycle))
           cyclicSnapshot_resolves).
Defined.

(** C7, as stated, fails: the snapshot with the cycle [A→B→A] and an
    Impact contributed to by the missing Id [Z] is refused by step 1, with
    DanglingReference, before the cycle is looked for. *)
Lemma cyclic_dangling_snapshot_fails_in_step_1 :
  has_cycle cyclicDanglingSnapshot ∧
  (∀ aggregate,
     process aggregate cyclicDanglingSnapshot
     = Some (Err (DanglingReference "Z"))) ∧
  ¬ (∀ aggregate d, has_cycle d →
       ∃ cyc, process aggregate d = Some (Err (CyclicEntryGraph cyc))).
Proof.
  assert (has_cycle cyclicDanglingSnapshot) as Hcycle
    by exact cyclicSnapshot_has_cycle.
  split; [done|]. split; [intros aggregate; by vm_compute|].
  intros Hall.
  destruct (Hall (λ _ _, ∅) cyclicDanglingSnapshot Hcycle) as [cyc Hcyc].
  by vm_compute in Hcyc.
Qed.

(* ===================================================================== *)
(** * The resolver: prerequisites come first *)
(* ===================================================================== *)

Lemma pickReady_Some (initialized : list string) (pending : list Extension)
    (e : Extension) (rest : list Extension) :
  pickReady initialized pending = Some (e, rest) →
  ready initialized e = true ∧
  length pending = S (length rest) ∧
  (∀ x, x ∈ pending → x = e ∨ x ∈ rest).
Proof.
  revert rest. induction pending as [|p pending IH]; intros rest; simpl.
  - done.
  - destruct (ready initialized p) eqn:Hp.
    + intros [= <- <-]. split; [done|]. split; [done|].
      intros x [->|Hx]%elem_of_cons; [by left|by right].
    + destruct (pickReady initialized pending) as [[r rest']|]; [|done].
      simpl. intros [= <- <-].
      destruct (IH rest' eq_refl) as (Hr & Hlen & Hmem).
      split; [done|]. split; [simpl; lia|].
      intros x [->|Hx]%elem_of_cons; [right; by left|].
      destruct (Hmem x Hx) as [->|Hrest]; [by left|right; by right].
Qed.

Lemma ready_dependencies (initialized : list string) (e : Extension)
    (d : string) :
  ready initialized e = true → d ∈ ext_dependencies e → d ∈ initialized.
Proof.
  unfold ready. rewrite forallb_forall. intros Hall Hd%list_elem_of_In.
  by apply Hall, bool_decide_eq_true in Hd.
Qed.

(** What is already initialized stays at the front of the order. *)
Lemma resolveLoop_prefix (steps : nat) (initialized : list string)
    (pending : list Extension) (order : list string) :
  resolveLoop steps initialized pending = Ok order →
  ∃ later, order = initialized ++ later.
Proof.
  revert initialized pending.
  induction steps as [|steps IH]; intros initialized pending; simpl.
  - intros [= <-]. exists []. by rewrite app_nil_r.
  - destruct (pickReady initialized pending) as [[e rest]|]; [|done].
    intros [later ->]%IH. exists (ext_name e :: later).
    by rewrite <- app_assoc.
Qed.

(** Every pending extension is initialized, after all it depends on. *)
Lemma resolveLoop_order (steps : nat) (initialized : list string)
    (pending : list Extension) (order : list string) (e : Extension) :
  length pending = steps →
  resolveLoop steps initialized pending = Ok order →
  e ∈ pending →
  ∃ l1 l2, order = l1 ++ ext_name e :: l2 ∧
           ∀ d, d ∈ ext_dependencies e → d ∈ l1.
Proof.
  revert initialized pending.
  induction steps as [|steps IH]; intros initialized pending Hlen; simpl.
  - apply nil_length_inv in Hlen as ->. by intros _ ?%not_elem_of_nil.
  - destruct (pickReady initialized pending) as [[r rest]|] eqn:Hpick;
      [|done].
    apply pickReady_Some in Hpick as (Hready & Hlen' & Hmem).
    intros Hloop [->|He]%Hmem.
    + apply resolveLoop_prefix in Hloop as [later ->].
      exists initialized, later. split; [by rewrite <- app_assoc|].
      intros d. by apply ready_dependencies.
    + eapply IH; [|done..]. lia.
Qed.

(** The order the resolver answers respects the declared dependencies. *)
Lemma resolve_respects_dependencies (extensions : list Extension)
    (order : list string) :
  resolve extensions = Ok order → respects_dependencies extensions order.
Proof.
  intros Hresolve e He. by eapply resolveLoop_order.
Qed.

(** The two failures of §4.6: a dependency that is not registered, and a
    cycle among the declared names. *)
Lemma resolve_missing_dependency :
  resolve [DAH_standards_extension] = Err ExtensionDependencyError.
Proof. reflexivity. Qed.

Lemma resolve_cyclic_dependencies :
  resolve [ {| ext_name := "X"; ext_dependencies := ["Y"] |};
            {| ext_name := "Y"; ext_dependencies := ["X"] |} ]%string
  = Err ExtensionDependencyError.
Proof. reflexivity. Qed.

Lemma dependency_initialized_before (extensions : list Extension)
    (order : list string) (e : Extension) (d : string) :
  respects_dependencies extensions order →
  e ∈ extensions → d ∈ ext_dependencies e →
  initialized_before order d (ext_name e).
Proof.
  intros Hresp He Hd. destruct (Hresp e He) as (l1 & l3 & -> & Hdeps).
  destruct (list_elem_of_split l1 d (Hdeps d Hd)) as (l0 & l2 & ->).
  exists l0, l2, l3. by rewrite <- app_assoc.
Qed.

(** C8. [dependencies()] of DAH_standards is the one-element sequence
    ["DAH_factors"]; hence in every initialization order that respects
    the declared dependencies of a set of extensions holding
    DAH_standards, and so in every order the resolver answers for such a
    set, DAH_factors is initialized strictly before DAH_standards. *)
Theorem DAH_standards_after_DAH_factors :
  dependencies = ["DAH_factors"%string] ∧
  (∀ extensions order,
     DAH_standards_extension ∈ extensions →
     respects_dependencies extensions order →
     initialized_before order "DAH_factors" "DAH_standards") ∧
  (∀ extensions order,
     DAH_standards_extension ∈ extensions →
     resolve extensions = Ok order →
     initialized_before order "DAH_factors" "DAH_standards").
Proof.
  split; [done|].
  assert (∀ extensions order,
            DAH_standards_extension ∈ extensions →
            respects_dependencies extensions order →
            initialized_before order "DAH_factors" "DAH_standards")
    as Hbefore.
  { intros extensions order Hin Hresp.
    apply (dependency_initialized_before extensions order
             DAH_standards_extension); [done..|].
    simpl. by left. }
  split; [exact Hbefore|].
  intros extensions order Hin Hresolve.
  by apply (Hbefore extensions), resolve_respects_dependencies.
Qed.

Lemma DAH_standards_after_DAH_factors_witness :
  resolve [DAH_standards_extension; sampleFactorsExtension]
  = Ok ["DAH_factors"; "DAH_standards"]%string ∧
  initialized_before ["DAH_factors"; "DAH_standards"]%string
    "DAH_factors" "DAH_standards".
Proof.
  split; [reflexivity|].
  apply (proj2 (proj2 DAH_standards_after_DAH_factors)
           [DAH_standards_extension; sampleFactorsExtension]).
  - by left.
  - reflexivity.
Defined.

(* ===================================================================== *)
(** * indexEntry: keys, sizes, composition *)
(* ===================================================================== *)

Lemma indexEntry_nil : indexEntry [] = ∅.
Proof. reflexivity. Qed.

Lemma indexEntry_size_le (es : list Entry) :
  (size (indexEntry es) ≤ length es)%nat.
Proof.
  induction es as [|e es IH] using rev_ind; [done|].
  rewrite indexEntry_snoc, length_app. simpl.
  destruct (indexEntry es !! id e) as [e'|] eqn:He.
  - rewrite map_size_insert_Some by done. lia.
  - rewrite map_size_insert_None by done. lia.
Qed.

(** X1. The keys of the index are exactly the ids of the input entries,
    and the index never holds more entries than the input. *)
Theorem indexEntry_keys (es : list Entry) :
  dom (indexEntry es) = list_to_set (id <$> es) ∧
  (size (indexEntry es) ≤ length es)%nat.
Proof.
  split; [|apply indexEntry_size_le].
  apply set_eq. intros k.
  rewrite elem_of_dom_indexEntry, elem_of_list_to_set, list_elem_of_fmap.
  split.
  - intros (e & He & <-). by exists e.
  - intros (e & -> & He). by exists e.
Qed.

Lemma indexEntry_unique_lookup (es : list Entry) (e : Entry) :
  NoDup (id <$> es) → e ∈ es → indexEntry es !! id e = Some e.
Proof.
  induction es as [|e' es IH] using rev_ind; [by intros _ ?%not_elem_of_nil|].
  rewrite fmap_app, indexEntry_snoc. simpl.
  intros [Hnd [Hnew _]]%NoDup_app [He|He%list_elem_of_singleton]%elem_of_app.
  - rewrite lookup_insert_ne; [by apply IH|].
    intros Heq. apply (Hnew (id e)).
    + by apply list_elem_of_fmap_2.
    + rewrite Heq. by left.
  - subst e'. apply lookup_insert_eq.
Qed.

Lemma indexEntry_unique_size (es : list Entry) :
  NoDup (id <$> es) → size (indexEntry es) = length es.
Proof.
  induction es as [|e es IH] using rev_ind; [done|].
  rewrite fmap_app, indexEntry_snoc, length_app. simpl.
  intros [Hnd [Hnew _]]%NoDup_app.
  assert (indexEntry es !! id e = None) as Hnone.
  { apply not_elem_of_dom. rewrite elem_of_dom_indexEntry.
    intros (e' & He' & Hid). apply (Hnew (id e)).
    - rewrite <- Hid. by apply list_elem_of_fmap_2.
    - by left. }
  rewrite map_size_insert_None by done. rewrite IH by done. lia.
Qed.

Lemma indexEntry_unique_perm (es es' : list Entry) :
  NoDup (id <$> es) → es ≡ₚ es' → indexEntry es' = indexEntry es.
Proof.
  intros Hunique Hperm. apply map_eq. intros k.
  assert (NoDup (id <$> es')) as Hunique' by (by rewrite <- Hperm).
  destruct (indexEntry es !! k) as [e|] eqn:Hk.
  - rewrite indexEntry_lookup in Hk.
    apply (last_filter_elem (λ e0, id e0 = k)) in Hk as [<- He].
    apply indexEntry_unique_lookup; [done|]. by rewrite <- Hperm.
  - apply not_elem_of_dom. apply not_elem_of_dom in Hk.
    rewrite elem_of_dom_indexEntry in *.
    intros (e & He & Hid). apply Hk. exists e. by rewrite Hperm.
Qed.

(** X2. When the ids of the input are pairwise distinct nothing is
    overwritten: every input entry is found under its id, the index has
    as many entries as the input, and the order of the input does not
    matter. *)
Theorem indexEntry_unique_ids (es : list Entry)
    (Hunique : NoDup (id <$> es)) :
  (∀ e, e ∈ es → indexEntry es !! id e = Some e) ∧
  size (indexEntry es) = length es ∧
  (∀ es', es ≡ₚ es' → indexEntry es' = indexEntry es).
Proof.
  split; [intros e; by apply indexEntry_unique_lookup|].
  split; [by apply indexEntry_unique_size|].
  intros es'. by apply indexEntry_unique_perm.
Qed.

Lemma indexEntry_unique_ids_witness :
  size (indexEntry (cyclicSnapshot.(entries).*2)) = 2%nat.
Proof.
  refine (proj1 (proj2 (indexEntry_unique_ids
                          (cyclicSnapshot.(entries).*2) _))).
  apply (bool_decide_unpack _). by vm_compute.
Defined.

(** X3. Indexing a concatenation is indexing both parts and letting the
    later part win on the ids they share. *)
Theorem indexEntry_app (es1 es2 : list Entry) :
  indexEntry (es1 ++ es2) = indexEntry es2 ∪ indexEntry es1.
Proof.
  induction es2 as [|e es2 IH] using rev_ind.
  - rewrite app_nil_r, indexEntry_nil. by rewrite (left_id_L ∅ (∪)).
  - rewrite app_assoc, !indexEntry_snoc, IH. by rewrite insert_union_l.
Qed.

Lemma map_to_list_self_keyed (m : gmap Id Entry) :
  (∀ k e, m !! k = Some e → id e = k) →
  id <$> (map_to_list m).*2 = (map_to_list m).*1.
Proof.
  intros Hkeyed. rewrite <- list_fmap_compose. apply list_fmap_ext.
  intros i [k e] Hke%list_elem_of_lookup_2%elem_of_map_to_list. simpl.
  by apply Hkeyed.
Qed.

(** An index in which every entry is stored under its own id is the
    index of its values. *)
Lemma indexEntry_values (m : gmap Id Entry) :
  (∀ k e, m !! k = Some e → id e = k) →
  indexEntry ((map_to_list m).*2) = m.
Proof.
  intros Hkeyed.
  assert (NoDup (id <$> (map_to_list m).*2)) as Hnd.
  { rewrite map_to_list_self_keyed by done. apply NoDup_fst_map_to_list. }
  apply map_eq. intros k. destruct (m !! k) as [e|] eqn:Hk.
  - rewrite <- (Hkeyed k e Hk).
    apply indexEntry_unique_lookup; [done|].
    apply list_elem_of_fmap. exists (k, e). split; [done|].
    by apply elem_of_map_to_list.
  - apply not_elem_of_dom. rewrite elem_of_dom_indexEntry.
    intros (e & [[k' e'] [-> Hin%elem_of_map_to_list]]%list_elem_of_fmap
            & Hid).
    simpl in *. rewrite (Hkeyed k' e' Hin) in Hid. congruence.
Qed.

Lemma indexEntry_self_keyed (es : list Entry) (k : Id) (e : Entry) :
  indexEntry es !! k = Some e → id e = k.
Proof.
  rewrite indexEntry_lookup. intros He.
  by apply (last_filter_elem (λ e0, id e0 = k)) in He as [? _].
Qed.

(** X4. Indexing the values of an index, in whatever order they are
    iterated, gives the index back. *)
Theorem indexEntry_idempotent (es : list Entry) (values : list Entry)
    (Hvalues : values ≡ₚ (map_to_list (indexEntry es)).*2) :
  indexEntry values = indexEntry es.
Proof.
  transitivity (indexEntry ((map_to_list (indexEntry es)).*2));
    [|apply indexEntry_values, indexEntry_self_keyed].
  symmetry in Hvalues. apply indexEntry_unique_perm; [|done].
  rewrite map_to_list_self_keyed by apply indexEntry_self_keyed.
  apply NoDup_fst_map_to_list.
Qed.

Lemma indexEntry_idempotent_witness :
  indexEntry ((map_to_list (indexEntry (cyclicSnapshot.(entries).*2))).*2)
  = indexEntry (cyclicSnapshot.(entries).*2).
Proof.
  exact (indexEntry_idempotent (cyclicSnapshot.(entries).*2) _
           (reflexivity _)).
Defined.

(* ===================================================================== *)
(** * Score vectors *)
(* ===================================================================== *)

Lemma assignAll_snoc (vec : Vector) (values : list (FactorScore * float))
    (factor : FactorScore) (value : float) :
  assignAll vec (values ++ [(factor, value)])
  = <[factorIndex factor := value]> (assignAll vec values).
Proof. unfold assignAll. by rewrite foldl_app. Qed.

Lemma assignAll_length (vec : Vector) (values : list (FactorScore * float)) :
  length (assignAll vec values) = length vec.
Proof.
  induction values as [|[f v] values IH] using rev_ind; [done|].
  rewrite assignAll_snoc. unfold Vector in *. by rewrite length_insert.
Qed.

Lemma assignAll_lookup (vec : Vector) (values : list (FactorScore * float))
    (i : nat) :
  Forall (λ fv, factorIndex fv.1 < length vec)%nat values →
  assignAll vec values !! i
  = match lastAssigned i values with
    | Some value => Some value
    | None => vec !! i
    end.
Proof.
  unfold lastAssigned.
  induction values as [|[f v] values IH] using rev_ind; [done|].
  intros [Hvalues Hf]%Forall_app. apply Forall_inv in Hf. simpl in Hf.
  rewrite assignAll_snoc, filter_app, filter_cons, filter_nil. simpl.
  unfold Vector in *.
  destruct (decide (factorIndex f = i)) as [<-|Hne].
  - rewrite last_snoc. simpl. apply list_lookup_insert_eq.
    by rewrite assignAll_length.
  - rewrite app_nil_r, list_lookup_insert_ne by done. by apply IH.
Qed.

Lemma vector_assignAll (env : Imports) (context : Context env)
    (values : list (FactorScore * float)) :
  vector env context values = assignAll (newZeroVector env context) values.
Proof. reflexivity. Qed.

(** The loop of [#emotionVector] is the loop of [vector] over the scaled
    weights. *)
Lemma emotionVector_loop (vec : Vector) (g : float → float)
    (emotions : WeightedEmotions) :
  foldl (λ vector '(emotion, factor), <[factorIndex emotion := g factor]> vector)
        vec emotions
  = assignAll vec (map (λ '(emotion, factor), (emotion, g factor)) emotions).
Proof.
  revert vec. induction emotions as [|[e f] emotions IH]; intros vec; [done|].
  simpl. by rewrite IH.
Qed.

Lemma lastAssigned_map (g : float → float) (i : nat)
    (emotions : WeightedEmotions) :
  lastAssigned i (map (λ '(emotion, factor), (emotion, g factor)) emotions)
  = g <$> lastAssigned i emotions.
Proof.
  unfold lastAssigned.
  induction emotions as [|[e f] emotions IH] using rev_ind; [done|].
  rewrite map_app, !filter_app. simpl. rewrite !filter_cons, !filter_nil.
  simpl. destruct (decide (factorIndex e = i)).
  - by rewrite !last_snoc.
  - by rewrite !app_nil_r.
Qed.

(** X7. [vector(context, values)] keeps the length of the zero vector
    and, index by index, holds the last value given for a factor of that
    index, or else the component of the zero vector, whenever the factor
    indices lie inside the vector. *)
Theorem vector_last_write_wins (env : Imports) (context : Context env)
    (values : list (FactorScore * float))
    (Hrange : Forall (λ fv, inRange env context fv.1) values) :
  length (vector env context values) = dimension env context ∧
  ∀ i, vector env context values !! i
       = match lastAssigned i values with
         | Some value => Some value
         | None => newZeroVector env context !! i
         end.
Proof.
  rewrite vector_assignAll. split; [apply assignAll_length|].
  intros i. by apply assignAll_lookup.
Qed.

Lemma vector_last_write_wins_witness :
  vector sampleImports 11%nat
    [(AP sampleImports, 1%float); (MP sampleImports, 2%float);
     (AP sampleImports, 3%float)] !! 0%nat
  = Some 3%float.
Proof.
  refine (eq_trans (proj2 (vector_last_write_wins sampleImports 11%nat
                             [(AP sampleImports, 1%float);
                              (MP sampleImports, 2%float);
                              (AP sampleImports, 3%float)] _) 0%nat) _).
  - repeat constructor; unfold inRange; simpl; lia.
  - reflexivity.
Defined.

(** Case analysis on outcomes: splits the statement, opens the
    hypotheses, and closes each case by congruence or by the outcome at
    hand. *)
Ltac settle_result :=
  unfold returns;
  repeat match goal with
         | |- _ ∧ _ => split
         | |- _ ↔ _ => split
         | |- _ → _ => intro
         | H : _ ∨ _ |- _ => destruct H
         | H : _ ∧ _ |- _ => destruct H
         | H : ∃ _, _ |- _ => destruct H
         end;
  try congruence;
  try solve [ left; split; congruence
            | right; split; congruence
            | eexists; reflexivity
            | split; [congruence | eexists; reflexivity] ].

Section ScoreVectors.
Variable env : Imports.
Implicit Types (context : Context env) (contributors : Contributors).
Implicit Types (emotions : WeightedEmotions) (periods : list DatePeriod).

Lemma emotionVector_cases context (base : float) emotions :
  emotionVector env context base emotions
  = match emotions with
    | [] => Err (AssertionFailed "empty emotion list")
    | _ :: _ =>
        match combine env context (map snd emotions)
                (Emotion_subscoreWeight env) with
        | Err e => Err e
        | Ok combinedFactor =>
            Ok (vector env context
                  (map (λ '(emotion, factor),
                        (emotion,
                         (base * Math_pow env factor 0.9
                          / combinedFactor)%float))
                       emotions))
        end
    end.
Proof.
  destruct emotions as [|ef emotions]; [done|].
  unfold emotionVector. set (es := ef :: emotions).
  change (assert _ _) with (Ok (A:=unit) tt).
  unfold mbind, result_bind.
  destruct (combine env context _ _) as [c|e]; [|done].
  by rewrite emotionVector_loop.
Qed.

Lemma emotionVector_Ok context (base : float) emotions (v : Vector) :
  emotionVector env context base emotions = Ok v →
  ∃ combinedFactor,
    combine env context (map snd emotions) (Emotion_subscoreWeight env)
    = Ok combinedFactor ∧
    v = assignAll (newZeroVector env context)
          (map (λ '(emotion, factor),
                (emotion,
                 (base * Math_pow env factor 0.9 / combinedFactor)%float))
               emotions).
Proof.
  rewrite emotionVector_cases. destruct emotions as [|ef emotions]; [done|].
  destruct (combine env context _ _) as [c|e]; [|done].
  intros [= <-]. by exists c.
Qed.

Lemma inRange_scaled context (g : float → float) emotions :
  Forall (λ ef, inRange env context ef.1) emotions →
  Forall (λ fv, inRange env context fv.1)
         (map (λ '(emotion, factor), (emotion, g factor)) emotions).
Proof.
  induction 1 as [|[e f] emotions He _ IH]; simpl; by constructor.
Qed.

(** X8. [#emotionVector], and [emotion] with it, fails in two ways only:
    with the failed assertion on the empty list, and with the error of
    [combine], which is called on the weights of the emotions in their
    order; otherwise it returns. *)
Theorem emotion_raises_exactly context contributors (base : float)
    emotions (name : string) (meta : list (string * Meta)) (e : error) :
  let combined :=
    combine env context (map snd emotions) (Emotion_subscoreWeight env) in
  (emotionVector env context base emotions = Err e ↔
   (emotions = [] ∧ e = AssertionFailed "empty emotion list") ∨
   (emotions ≠ [] ∧ combined = Err e)) ∧
  (emotion env context contributors base emotions name meta = Err e ↔
   (emotions = [] ∧ e = AssertionFailed "empty emotion list") ∨
   (emotions ≠ [] ∧ combined = Err e)) ∧
  (returns (emotion env context contributors base emotions name meta) ↔
   emotions ≠ [] ∧ returns combined).
Proof.
  intros combined. subst combined. unfold emotion.
  rewrite emotionVector_cases.
  destruct emotions as [|ef emotions];
    [|destruct (combine env context _ _) as [c|e']]; simpl; settle_result.
Qed.

(** X9. When [#emotionVector] returns, the vector has the length of the
    zero vector and, index by index, holds
    [baseScore * Math.pow(factor, 0.9) / combinedFactor] for the last
    emotion of that factor index, or else the component of the zero
    vector, whenever the factor indices lie inside the vector. *)
Theorem emotionVector_components context (base : float) emotions
    (v : Vector)
    (Hrange : Forall (λ ef, inRange env context ef.1) emotions)
    (Hv : emotionVector env context base emotions = Ok v) :
  ∃ combinedFactor,
    combine env context (map snd emotions) (Emotion_subscoreWeight env)
    = Ok combinedFactor ∧
    length v = dimension env context ∧
    ∀ i, v !! i
         = match lastAssigned i emotions with
           | Some factor =>
               Some (base * Math_pow env factor 0.9 / combinedFactor)%float
           | None => newZeroVector env context !! i
           end.
Proof.
  apply emotionVector_Ok in Hv as (c & Hc & ->). exists c.
  split; [done|]. split; [apply assignAll_length|].
  intros i. rewrite assignAll_lookup.
  - rewrite (lastAssigned_map
               (λ factor, (base * Math_pow env factor 0.9 / c)%float)).
    by destruct (lastAssigned i emotions).
  - by apply (inRange_scaled context
                (λ factor, (base * Math_pow env factor 0.9 / c)%float)).
Qed.

(** X10. The constructors with a fixed emotion list ([ehi], [jumpscare],
    [sleeplessNight], [waifu]) never fail the assertion on the empty
    list: they fail exactly when [combine] fails on the one weight [1],
    and with its error. *)
Theorem fixed_emotion_constructors_raise context contributors (e : error) :
  let combined :=
    combine env context [1%float] (Emotion_subscoreWeight env) in
  (ehi env context contributors = Err e ↔ combined = Err e) ∧
  (jumpscare env context contributors = Err e ↔ combined = Err e) ∧
  (sleeplessNight env context contributors = Err e ↔ combined = Err e) ∧
  (∀ name periods,
     waifu env context contributors name periods = Err e ↔
     combined = Err e).
Proof.
  intros combined. subst combined.
  unfold ehi, jumpscare, sleeplessNight, waifu, emotion.
  repeat split; try intros name periods;
    rewrite emotionVector_cases; simpl;
    destruct (combine env context _ _); simpl; congruence.
Qed.

(** X11. [cryPADS] returns exactly when the emotion list is not empty and
    [combine] returns on its weights, and then with two Impacts, the one
    of [cry] before the one of [pads]. *)
Theorem cryPADS_returns_pair context contributors periods emotions :
  (returns (cryPADS env context contributors periods emotions) ↔
   emotions ≠ [] ∧
   returns (combine env context (map snd emotions)
              (Emotion_subscoreWeight env))) ∧
  (∀ l, cryPADS env context contributors periods emotions = Ok l →
        ∃ i1 i2, l = [i1; i2] ∧
                 cry env context contributors emotions = Ok i1 ∧
                 pads env context contributors periods emotions = Ok i2).
Proof.
  unfold cryPADS, cry, pads, emotion. rewrite !emotionVector_cases.
  destruct emotions as [|ef emotions];
    [|destruct (combine env context _ _) as [c|e]]; simpl; settle_result.
  injection H as <-. by eexists _, _.
Qed.

End ScoreVectors.

Lemma emotionVector_components_witness :
  ∃ combinedFactor,
    combine sampleImports 11%nat [1%float]
      (Emotion_subscoreWeight sampleImports) = Ok combinedFactor ∧
    length (replicate 4 0%float ++ [3%float] ++ replicate 6 0%float)
    = 11%nat.
Proof.
  destruct (emotionVector_components sampleImports 11%nat 3%float
              [(MP sampleImports, 1%float)]
              (replicate 4 0%float ++ [3%float] ++ replicate 6 0%float))
    as (c & Hc & Hlen & _).
  - repeat constructor; unfold inRange; simpl; lia.
  - reflexivity.
  - exists c. split; [exact Hc|exact Hlen].
Defined.

(* ===================================================================== *)
(** * What every constructor keeps *)
(* ===================================================================== *)

Section ConstructorInvariants.
Variable env : Imports.
Variable fs : Factors.
Variable config : Config.
Implicit Types (context : Context env) (contributors : Contributors).
Implicit Types (emotions : WeightedEmotions) (periods : list DatePeriod).

Lemma vector_dimension context (values : list (FactorScore * float)) :
  length (vector env context values) = dimension env context.
Proof. rewrite vector_assignAll. apply assignAll_length. Qed.

Lemma emotion_dimension context contributors (base : float) emotions
    (name : string) (meta : list (string * Meta)) (i : Impact) :
  emotion env context contributors base emotions name meta = Ok i →
  length (score i) = dimension env context.
Proof.
  unfold emotion.
  destruct (emotionVector env context base emotions) as [v|e] eqn:Hv;
    [|done].
  intros [= <-]. simpl.
  apply emotionVector_Ok in Hv as (c & _ & ->). apply assignAll_length.
Qed.

Lemma emotion_provenance context contributors (base : float) emotions
    (name : string) (args : string) (payload : Meta) (i : Impact) :
  emotion env context contributors base emotions name [(args, payload)]
  = Ok i →
  String.eqb args "name" = false →
  provenance (DAH_meta i)
  = Some (MStr "DAH_standards", MStr "1.1.1", MStr name).
Proof.
  unfold emotion.
  destruct (emotionVector env context base emotions) as [v|e]; [|done].
  intros [= <-] Hargs. reflexivity.
Qed.

Lemma emotion_provenance_plain context contributors (base : float) emotions
    (name : string) (i : Impact) :
  emotion env context contributors base emotions name [] = Ok i →
  provenance (DAH_meta i)
  = Some (MStr "DAH_standards", MStr "1.1.1", MStr name).
Proof.
  unfold emotion.
  destruct (emotionVector env context base emotions) as [v|e]; [|done].
  by intros [= <-].
Qed.

(** Reduces a statement on a constructor that ends in a call of
    [emotion], behind its own checks, to the statement on that call. *)
Ltac through_emotion lemma :=
  intros;
  match goal with
  | H : _ = Ok _ |- _ =>
      unfold cry, pads, xei, aei, nei, waifu, ehi, epi, jumpscare,
        sleeplessNight, meme in H;
      repeat match type of H with
             | context [mapClampThrow ?a ?b ?c ?d ?e] =>
                 destruct (mapClampThrow a b c d e); simpl in H;
                 [|discriminate]
             | (if ?b then _ else _) = _ => destruct b; [discriminate|]
             end;
      unfold xei in H; by eapply lemma
  end.

(** X12. Every constructor keeps the dimension of the context: the score
    of each Impact it returns, and the diagonal of the one reference of
    each Relation, has the length of the zero vector, whenever the factor
    indices lie inside the vector. *)
Theorem constructors_keep_dimension context contributors emotions
    (Hfactors : factorsInRange env fs context)
    (Hemotions : Forall (λ ef, inRange env context ef.1) emotions) :
  let built (r : result Impact) :=
    ∀ i, r = Ok i → length (score i) = dimension env context in
  let sized (i : Impact) := length (score i) = dimension env context in
  let linked (r : Relation) (reference : Id) :=
    ∃ data, references r !! reference = Some (Diagonal data) ∧
            length data = dimension env context in
  (∀ base name meta,
     built (emotion env context contributors base emotions name meta)) ∧
  built (cry env context contributors emotions) ∧
  (∀ periods, built (pads env context contributors periods emotions)) ∧
  (∀ name factor sign base,
     built (xei env context contributors name factor sign base emotions)) ∧
  (∀ factor sign, built (aei env context contributors factor sign emotions)) ∧
  (∀ factor sign, built (nei env context contributors factor sign emotions)) ∧
  (∀ name periods, built (waifu env context contributors name periods)) ∧
  built (ehi env context contributors) ∧
  (∀ factor, built (epi env context contributors factor)) ∧
  built (jumpscare env context contributors) ∧
  built (sleeplessNight env context contributors) ∧
  (∀ strength periods,
     built (meme env context contributors strength periods)) ∧
  (∀ personal community,
     built (osuSong env context contributors personal community)) ∧
  sized (politics env fs context contributors) ∧
  (∀ newField, sized (interestField env fs context contributors newField)) ∧
  (∀ boredom duration name meta,
     sized (consumed env fs config context contributors boredom duration
              name meta)) ∧
  (∀ boredom episodes episodeDuration,
     sized (animeConsumed env fs config context contributors boredom
              episodes episodeDuration)) ∧
  sized (dropped env fs context contributors) ∧
  (∀ value description,
     sized (additional env fs context contributors value description)) ∧
  (∀ musicBase, sized (music env fs context contributors musicBase)) ∧
  (∀ visualType base unique,
     sized (visual env fs context contributors visualType base unique)) ∧
  (∀ reference,
     linked (featureMusic env fs context contributors reference) reference ∧
     linked (remix env context contributors reference) reference ∧
     (∀ potential effect,
        linked (killedBy env fs context contributors reference potential
                  effect) reference) ∧
     linked (gateOpen env context contributors reference) reference).
Proof.
  intros built sized linked. subst built sized linked. cbv beta.
  split; [intros base name meta i; apply emotion_dimension|].
  split; [through_emotion emotion_dimension|].
  split; [through_emotion emotion_dimension|].
  split; [through_emotion emotion_dimension|].
  split; [through_emotion emotion_dimension|].
  split; [through_emotion emotion_dimension|].
  split; [through_emotion emotion_dimension|].
  split; [through_emotion emotion_dimension|].
  split; [through_emotion emotion_dimension|].
  split; [through_emotion emotion_dimension|].
  split; [through_emotion emotion_dimension|].
  split; [through_emotion emotion_dimension|].
  split.
  { intros personal community i. unfold osuSong.
    destruct (mapClampThrow personal _ _ _ _); [|done].
    destruct (mapClampThrow community _ _ _ _); [|done].
    intros [= <-]. apply vector_dimension. }
  split; [apply vector_dimension|].
  split; [intros; apply vector_dimension|].
  split.
  { intros boredom duration name meta. unfold consumed.
    destruct (consumedBase config duration) as [[? ?] ?].
    apply vector_dimension. }
  split.
  { intros boredom episodes episodeDuration. unfold animeConsumed, consumed.
    destruct (consumedBase config _) as [[? ?] ?]. apply vector_dimension. }
  split; [apply vector_dimension|].
  split; [intros; apply vector_dimension|].
  split; [intros; apply vector_dimension|].
  split; [intros; apply vector_dimension|].
  intros reference. repeat split; try intros potential effect;
    eexists; (split; [apply lookup_singleton_eq|]).
  - apply vector_dimension.
  - unfold Array_fill. apply length_replicate.
  - rewrite length_map. apply vector_dimension.
  - done.
Qed.

(** X13. The Impacts and Relations built through [#impactMeta] and
    [#relationMeta] carry the provenance stamp of the extension
    (extension DAH_standards, version 1.1.1) and the name of their
    constructor; [visual], [killedBy] and [gateOpen] return a plain
    object literal and carry no stamp. *)
Theorem provenance_stamp context contributors :
  let stamped (r : result Impact) (name : string) :=
    ∀ i, r = Ok i →
         provenance (DAH_meta i)
         = Some (MStr "DAH_standards", MStr "1.1.1", MStr name) in
  let stamp (name : string) :=
    Some (MStr "DAH_standards", MStr "1.1.1", MStr name) in
  (∀ emotions, stamped (cry env context contributors emotions) "cry") ∧
  (∀ periods emotions,
     stamped (pads env context contributors periods emotions) "pads") ∧
  (∀ factor sign emotions,
     stamped (aei env context contributors factor sign emotions) "aei") ∧
  (∀ factor sign emotions,
     stamped (nei env context contributors factor sign emotions) "nei") ∧
  (∀ name periods,
     stamped (waifu env context contributors name periods) "waifu") ∧
  stamped (ehi env context contributors) "ehi" ∧
  (∀ factor, stamped (epi env context contributors factor) "epi") ∧
  stamped (jumpscare env context contributors) "jumpscare" ∧
  stamped (sleeplessNight env context contributors) "sleeplessNight" ∧
  (∀ strength periods,
     stamped (meme env context contributors strength periods) "meme") ∧
  (∀ personal community,
     stamped (osuSong env context contributors personal community)
       "osuSong") ∧
  provenance (DAH_meta (politics env fs context contributors))
  = stamp "politics" ∧
  (∀ newField,
     provenance (DAH_meta (interestField env fs context contributors
                             newField))
     = stamp "interestField") ∧
  (∀ boredom episodes episodeDuration,
     provenance (DAH_meta (animeConsumed env fs config context contributors
                             boredom episodes episodeDuration))
     = stamp "animeConsumed") ∧
  provenance (DAH_meta (dropped env fs context contributors))
  = stamp "dropped" ∧
  (∀ value description,
     provenance (DAH_meta (additional env fs context contributors value
                             description))
     = stamp "additional") ∧
  (∀ musicBase,
     provenance (DAH_meta (music env fs context contributors musicBase))
     = stamp "music") ∧
  (∀ reference,
     provenance (rel_DAH_meta (featureMusic env fs context contributors
                                 reference))
     = stamp "featureMusic" ∧
     provenance (rel_DAH_meta (remix env context contributors reference))
     = stamp "remix" ∧
     provenance (rel_DAH_meta (gateOpen env context contributors reference))
     = None ∧
     ∀ potential effect,
       provenance (rel_DAH_meta (killedBy env fs context contributors
                                   reference potential effect))
       = None) ∧
  (∀ visualType base unique,
     provenance (DAH_meta (visual env fs context contributors visualType
                             base unique))
     = None).
Proof.
  intros stamped stamp. subst stamped stamp. cbv beta.
  split; [through_emotion emotion_provenance_plain|].
  split; [through_emotion emotion_provenance|].
  split; [through_emotion emotion_provenance|].
  split; [through_emotion emotion_provenance|].
  split; [through_emotion emotion_provenance|].
  split; [through_emotion emotion_provenance_plain|].
  split; [through_emotion emotion_provenance|].
  split; [through_emotion emotion_provenance_plain|].
  split; [through_emotion emotion_provenance_plain|].
  split; [through_emotion emotion_provenance|].
  split.
  { intros personal community i. unfold osuSong.
    destruct (mapClampThrow personal _ _ _ _); [|done].
    destruct (mapClampThrow community _ _ _ _); [|done].
    by intros [= <-]. }
  split; [done|]. split; [done|].
  split.
  { intros boredom episodes episodeDuration. unfold animeConsumed, consumed.
    by destruct (consumedBase config _) as [[? ?] ?]. }
  repeat split; done.
Qed.

End ConstructorInvariants.

Lemma constructors_keep_dimension_witness :
  factorsInRange sampleImports sampleFactors 11%nat ∧
  length (score (politics sampleImports sampleFactors 11%nat ∅)) = 11%nat.
Proof.
  assert (factorsInRange sampleImports sampleFactors 11%nat) as Hfactors.
  { repeat constructor; unfold inRange; simpl; lia. }
  split; [exact Hfactors|].
  destruct (constructors_keep_dimension sampleImports sampleFactors
              (DAH_standards_new {| averageAnimeEpisodeDuration := None |})
              11%nat ∅ [(AP sampleImports, 1%float)] Hfactors)
    as (_ & _ & _ & _ & _ & _ & _ & _ & _ & _ & _ & _ & _ & Hpolitics & _).
  - repeat constructor; unfold inRange; simpl; lia.
  - exact Hpolitics.
Defined.

(* ===================================================================== *)
(** * consumed and animeConsumed *)
(* ===================================================================== *)

(** X14. With the default configuration (episodes of twenty minutes) and
    no episode duration given, [animeConsumed] is [consumed] on twenty
    minutes times the number of episodes, so a whole number of episodes
    is scored as tiny when it is zero or less, as short (against two
    hours, base score 0.3) from one to five episodes, and as long
    (against the twelve episodes of four hours, base score 1.0) from six
    episodes on. *)
Theorem animeConsumed_default_tiers (env : Imports) (fs : Factors)
    (context : Context env) (contributors : Contributors)
    (boredom : float) (episodes : Z) :
  let config := DAH_standards_new {| averageAnimeEpisodeDuration := None |} in
  let duration := Duration_minutes 20 * episodes in
  animeConsumed env fs config context contributors boredom episodes None
  = consumed env fs config context contributors boredom duration
      "animeConsumed"
      [("animeConsumedArgs",
        MObj [("episodes", MNum (float_of_Z episodes));
              ("episodeDuration", MDuration (Duration_minutes 20))])
      ]%string ∧
  (episodes ≤ 0 →
   consumedBase config duration
   = ("tiny"%string, 0.1%float, Duration_minutes 5)) ∧
  (1 ≤ episodes ≤ 5 →
   consumedBase config duration
   = ("short"%string, 0.3%float, Duration_hours 2)) ∧
  (6 ≤ episodes →
   consumedBase config duration
   = ("long"%string, 1.0%float, Duration_hours 4)).
Proof.
  intros config duration. subst config duration.
  split; [reflexivity|].
  unfold consumedBase, Duration_minutes, Duration_hours. simpl.
  repeat split; intros Hepisodes;
    repeat match goal with
           | |- context [?a <? ?b] => destruct (Z.ltb_spec a b); try lia
           end;
    reflexivity.
Qed.

(* ===================================================================== *)
(** * Binary64 edge cases *)
(* ===================================================================== *)

Lemma SFcompare_refl (s : spec_float) :
  s ≠ S754_nan → SFcompare s s = Some Eq.
Proof.
  destruct s as [[]|[]| |[] m e]; simpl; try done;
    intros _; rewrite Z.compare_refl, Pos.compare_cont_refl; done.
Qed.

Lemma is_nan_spec (x : float) :
  PrimFloat.is_nan x = true ↔ Prim2SF x = S754_nan.
Proof.
  unfold PrimFloat.is_nan. rewrite FloatAxioms.eqb_spec. unfold SFeqb.
  destruct (Prim2SF x) as [s|s| |s m e]; try done;
    rewrite SFcompare_refl by done; done.
Qed.

Lemma SFcompare_antisym (a b : spec_float) :
  SFcompare b a = CompOpp <$> SFcompare a b.
Proof.
  destruct a as [[]|[]| |[] m1 e1], b as [[]|[]| |[] m2 e2]; simpl;
    try reflexivity;
    rewrite (Z.compare_antisym e1 e2); destruct (e1 ?= e2); simpl;
    try reflexivity;
    rewrite <- (Pos.compare_cont_antisym m1 m2 Eq
                : CompOpp (Pos.compare_cont Eq m1 m2)
                  = Pos.compare_cont Eq m2 m1);
    by destruct (Pos.compare_cont Eq m1 m2).
Qed.

Lemma ltb_asym (x y : float) :
  PrimFloat.ltb x y = true → PrimFloat.ltb y x = false.
Proof.
  rewrite !FloatAxioms.ltb_spec. unfold SFltb.
  rewrite (SFcompare_antisym (Prim2SF x) (Prim2SF y)).
  by destruct (SFcompare (Prim2SF x) (Prim2SF y)) as [[]|].
Qed.

Lemma ltb_nan_r (x y : float) :
  PrimFloat.is_nan y = true → PrimFloat.ltb x y = false.
Proof.
  rewrite is_nan_spec, FloatAxioms.ltb_spec. intros ->. unfold SFltb.
  by destruct (Prim2SF x).
Qed.

Lemma ltb_nan_l (x y : float) :
  PrimFloat.is_nan x = true → PrimFloat.ltb x y = false.
Proof.
  rewrite is_nan_spec, FloatAxioms.ltb_spec. by intros ->.
Qed.

Lemma sub_nan_l (x y : float) :
  PrimFloat.is_nan x = true → PrimFloat.is_nan (x - y) = true.
Proof.
  rewrite !is_nan_spec, FloatAxioms.sub_spec. by intros ->.
Qed.

Lemma div_nan_l (x y : float) :
  PrimFloat.is_nan x = true → PrimFloat.is_nan (x / y) = true.
Proof.
  rewrite !is_nan_spec, FloatAxioms.div_spec. by intros ->.
Qed.

Lemma mul_nan_l (x y : float) :
  PrimFloat.is_nan x = true → PrimFloat.is_nan (x * y) = true.
Proof.
  rewrite !is_nan_spec, FloatAxioms.mul_spec. by intros ->.
Qed.

Lemma mul_nan_r (x y : float) :
  PrimFloat.is_nan y = true → PrimFloat.is_nan (x * y) = true.
Proof.
  rewrite !is_nan_spec, FloatAxioms.mul_spec. intros ->.
  by destruct (Prim2SF x).
Qed.

Lemma add_nan_r (x y : float) :
  PrimFloat.is_nan y = true → PrimFloat.is_nan (x + y) = true.
Proof.
  rewrite !is_nan_spec, FloatAxioms.add_spec. intros ->.
  by destruct (Prim2SF x).
Qed.

Lemma abs_nan (x : float) :
  PrimFloat.is_nan x = true → PrimFloat.is_nan (abs x) = true.
Proof.
  rewrite !is_nan_spec, FloatAxioms.abs_spec. by intros ->.
Qed.

Lemma abs_opp (x : float) : abs (- x) = abs x.
Proof.
  apply FloatAxioms.Prim2SF_inj.
  rewrite !FloatAxioms.abs_spec, FloatAxioms.opp_spec.
  by destruct (Prim2SF x).
Qed.

Lemma mapClampThrow_of_nan (inp iMin iMax oMin oMax : float) :
  PrimFloat.is_nan inp = true →
  ∃ r, mapClampThrow inp iMin iMax oMin oMax = Ok r ∧
       PrimFloat.is_nan r = true.
Proof.
  intros Hnan. unfold mapClampThrow.
  assert (PrimFloat.is_nan ((inp - iMin) / (inp - iMax)) = true) as Hfactor
    by (by apply div_nan_l, sub_nan_l).
  rewrite (ltb_nan_l _ _ Hfactor), (ltb_nan_r _ _ Hfactor). simpl.
  eexists. split; [done|]. by apply add_nan_r, mul_nan_r.
Qed.

(** X15. [mapClampThrow] does not reject NaN: on a NaN input, whatever
    the four bounds, it returns, and returns NaN; so [epi] and [aei] on a
    NaN factor go on to [emotion] with a NaN base instead of raising the
    range error. *)
Theorem mapClampThrow_passes_nan (inp iMin iMax oMin oMax : float)
    (Hnan : PrimFloat.is_nan inp = true) :
  (∃ r, mapClampThrow inp iMin iMax oMin oMax = Ok r ∧
        PrimFloat.is_nan r = true) ∧
  (∀ env context contributors,
     ∃ base, PrimFloat.is_nan base = true ∧
       epi env context contributors inp
       = emotion env context contributors base [(AP env, 1%float)] "epi"
           [("epiArgs", MObj [("factor", MNum inp)])]%string) ∧
  (∀ env context contributors sign emotions,
     ∃ base, PrimFloat.is_nan base = true ∧
       aei env context contributors inp sign emotions
       = xei env context contributors "aei" inp sign base emotions).
Proof.
  split; [by apply mapClampThrow_of_nan|]. split.
  - intros env context contributors.
    destruct (mapClampThrow_of_nan inp 0 1 3.5 4.5 Hnan) as (r & Hr & Hrnan).
    exists r. split; [done|]. unfold epi. by rewrite Hr.
  - intros env context contributors sign emotions.
    destruct (mapClampThrow_of_nan (Math_abs inp) 0 1 2 3)
      as (r & Hr & Hrnan); [by apply abs_nan|].
    exists (r * Sign_value sign)%float. split; [by apply mul_nan_l|].
    unfold aei. by rewrite Hr.
Qed.

Lemma mapClampThrow_passes_nan_witness :
  ∃ r, mapClampThrow nan 0 1 3.5 4.5 = Ok r ∧ PrimFloat.is_nan r = true.
Proof.
  exact (proj1 (mapClampThrow_passes_nan nan 0 1 3.5 4.5 eq_refl)).
Defined.

(** X16. [aei] and [nei] read their factor through [Math.abs] only: the
    factor and its opposite give the same error, or Impacts with the same
    score and contributors. *)
Theorem aei_ignores_factor_sign (env : Imports) (context : Context env)
    (contributors : Contributors) (factor : float) (sign : Sign)
    (emotions : WeightedEmotions) :
  same_outcome (aei env context contributors (- factor) sign emotions)
               (aei env context contributors factor sign emotions) ∧
  same_outcome (nei env context contributors (- factor) sign emotions)
               (nei env context contributors factor sign emotions).
Proof.
  unfold aei, nei, Math_abs. rewrite abs_opp.
  split.
  - destruct (mapClampThrow (abs factor) 0 1 2 3) as [m|e]; [|done]. simpl.
    unfold xei, emotion.
    by destruct (emotionVector env context _ emotions).
  - destruct (mapClampThrow (abs factor) 0 1 0 2) as [m|e]; [|done]. simpl.
    unfold xei, emotion.
    by destruct (emotionVector env context _ emotions).
Qed.

(** X17. The day count [pads] hands to [Math.pow] is never above 10:
    [Math.min(10, days)] is [days] or [10], and [10 < Math.min(10, days)]
    is false for every number, NaN included. *)
Theorem pads_day_count_is_clamped (days : float) :
  PrimFloat.ltb 10 (Math_min 10 days) = false ∧
  (Math_min 10 days = days ∨ Math_min 10 days = 10%float) ∧
  (∀ env context contributors periods emotions,
     ∃ clamped, PrimFloat.ltb 10 clamped = false ∧
       pads env context contributors periods emotions
       = emotion env context contributors
           (0.3 * Math_pow env clamped 1.3)%float emotions "pads"
           [("padsArgs",
             MObj [("duration", MDuration (periodsLength periods));
                   ("days",
                    MNum (Duration_as_days (periodsLength periods)));
                   ("periods", MList (map periodMeta periods))])]%string).
Proof.
  assert (∀ d, PrimFloat.ltb 10 (Math_min 10 d) = false ∧
               (Math_min 10 d = d ∨ Math_min 10 d = 10%float)) as Hclamp.
  { intros d. unfold Math_min.
    change (PrimFloat.is_nan 10) with false. cbv iota.
    destruct (PrimFloat.is_nan d) eqn:Hd.
    - split; [by apply ltb_nan_r|by left].
    - destruct (PrimFloat.ltb d 10) eqn:Hlt.
      + split; [by apply ltb_asym|by left].
      + split; [reflexivity|by right]. }
  split; [apply Hclamp|]. split; [apply Hclamp|].
  intros env context contributors periods emotions.
  exists (Math_min 10 (Duration_as_days (periodsLength periods))).
  split; [apply Hclamp|reflexivity].
Qed.

Lemma leb_ltb_false (x y : float) :
  PrimFloat.leb x y = true → PrimFloat.ltb y x = false.
Proof.
  rewrite FloatAxioms.leb_spec, FloatAxioms.ltb_spec. unfold SFleb, SFltb.
  rewrite (SFcompare_antisym (Prim2SF x) (Prim2SF y)).
  by destruct (SFcompare (Prim2SF x) (Prim2SF y)) as [[]|].
Qed.

Lemma leb_nan_r (x y : float) :
  PrimFloat.is_nan y = true → PrimFloat.leb x y = false.
Proof.
  rewrite is_nan_spec, FloatAxioms.leb_spec. intros ->. unfold SFleb.
  by destruct (Prim2SF x).
Qed.

(** X18. From ten days on, the base of [pads] no longer depends on the
    length: [Math.min(10, days)] is 10 for every day count that is at least
    10, so every period list with such a day count gets the base
    [0.3 * Math.pow(10, 1.3)]. *)
Theorem pads_base_saturates (days : float)
    (Hlong : PrimFloat.leb 10 days = true) :
  Math_min 10 days = 10%float ∧
  (∀ env context contributors periods emotions,
     Duration_as_days (periodsLength periods) = days →
     pads env context contributors periods emotions
     = emotion env context contributors
         (0.3 * Math_pow env 10 1.3)%float emotions "pads"
         [("padsArgs",
           MObj [("duration", MDuration (periodsLength periods));
                 ("days", MNum days);
                 ("periods", MList (map periodMeta periods))])]%string).
Proof.
  assert (Math_min 10 days = 10%float) as Hmin.
  { unfold Math_min. change (PrimFloat.is_nan 10) with false. cbv iota.
    destruct (PrimFloat.is_nan days) eqn:Hnan.
    - by rewrite (leb_nan_r 10 days Hnan) in Hlong.
    - by rewrite (leb_ltb_false 10 days Hlong). }
  split; [exact Hmin|].
  intros env context contributors periods emotions Hdays.
  unfold pads. by rewrite Hdays, Hmin.
Qed.

Lemma pads_base_saturates_witness :
  PrimFloat.leb 10 (Duration_as_days (periodsLength [DurationPeriod 950400000]))
  = true ∧
  Math_min 10 (Duration_as_days (periodsLength [DurationPeriod 950400000]))
  = 10%float.
Proof.
  split; [reflexivity|].
  exact (proj1 (pads_base_saturates
                  (Duration_as_days (periodsLength [DurationPeriod 950400000]))
                  eq_refl)).
Defined.
